(** * Practica3: SAN recogniser, turn ledger, tree renderer, move flattener

    A shallow embedding of [src/Practica3.py] (class [SANParser]) and the
    properties its specification states about it.

    - Python [str] values are lists of Unicode code points.
    - [re.compile] / [Pattern.match] are modelled by a backtracking matcher
      over the fragment of the pattern language the source uses.
    - [print] appends one line to an output list.
    - The [chess] package is an interface ([ChessEngine]); board objects
      live in a heap so that aliasing between [self.board] and the
      flattener's local board is visible. *)

From stdpp Require Import gmap strings list pretty.
From Equations Require Import Equations.

Local Open Scope N_scope.

(** ** Python strings *)

Module Str.

(** A code point, and a [str]. *)
Definition char := N.
Definition str := list char.

(** Source literals are written as UTF-8 text; [utf8] turns the bytes
    of a literal into its code points. *)
Fixpoint utf8 (bs : list N) : str :=
  match bs with
  | [] => []
  | b :: r =>
    if b <? 128 then b :: utf8 r
    else if b <? 224 then
      match r with
      | b1 :: r1 => ((b - 192) * 64 + (b1 - 128)) :: utf8 r1
      | _ => []
      end
    else if b <? 240 then
      match r with
      | b1 :: b2 :: r2 =>
          ((b - 224) * 4096 + (b1 - 128) * 64 + (b2 - 128)) :: utf8 r2
      | _ => []
      end
    else
      match r with
      | b1 :: b2 :: b3 :: r3 =>
          ((b - 240) * 262144 + (b1 - 128) * 4096 + (b2 - 128) * 64
           + (b3 - 128)) :: utf8 r3
      | _ => []
      end
  end.

Definition py (s : string) : str :=
  utf8 (map Ascii.N_of_ascii (String.list_ascii_of_string s)).

(** One-character literal. *)
Definition ch (s : string) : char := default 0 (head (py s)).

(** [str(n)] for a non-negative [int]. *)
Definition of_nat (n : nat) : str := py (pretty n).

(** Truth value of a [str]: empty is false. *)
Definition truthy (s : str) : bool :=
  match s with [] => false | _ => true end.

Fixpoint starts_with (p s : str) : bool :=
  match p, s with
  | [], _ => true
  | a :: p', b :: s' => (a =? b) && starts_with p' s'
  | _ :: _, [] => false
  end.

(** [s.replace(old, new)]: every non-overlapping occurrence, scanning
    from the left.  [skip] counts the characters of an occurrence that
    are still to be dropped. *)
Fixpoint replace_from (old new : str) (skip : nat) (s : str) : str :=
  match s with
  | [] => []
  | c :: s' =>
    match skip with
    | S k => replace_from old new k s'
    | O =>
      if starts_with old s
      then new ++ replace_from old new (pred (length old)) s'
      else c :: replace_from old new O s'
    end
  end.

Definition replace (s old new : str) : str :=
  match old with
  | [] => new ++ flat_map (fun c => c :: new) s
  | _ => replace_from old new O s
  end.

(** [sep.join(parts)]. *)
Fixpoint join (sep : str) (parts : list str) : str :=
  match parts with
  | [] => []
  | [p] => p
  | p :: rest => p ++ sep ++ join sep rest
  end.

End Str.

Import Str.

(** ** The pattern language used by [_compile_patterns] *)

Module Re.

(** Members of a bracket set: a single character or a range. *)
Inductive item :=
| One (c : char)
| Range (lo hi : char).

Inductive regex :=
| Lit (c : char)              (* a literal character *)
| Set_ (items : list item)    (* [...] *)
| Cat (r1 r2 : regex)         (* juxtaposition *)
| Alt (r1 r2 : regex)         (* r1|r2 *)
| Opt (r : regex)             (* (?:r)?, greedy *)
| Bol                         (* ^ *)
| Eol.                        (* $ *)

Definition in_item (c : char) (i : item) : bool :=
  match i with
  | One d => c =? d
  | Range lo hi => (lo <=? c) && (c <=? hi)
  end.

Definition in_set (items : list item) (c : char) : bool :=
  existsb (in_item c) items.

(** [$] without MULTILINE: at the end of the string, or just before a
    newline that is the last character of the string. *)
Definition at_end (rest : str) : bool :=
  match rest with
  | [] => true
  | [c] => c =? 10
  | _ => false
  end.

(** Backtracking matcher.  [pos] is the current index into the subject,
    [rest] the subject from there on, and [k] what remains to be matched
    after [r]; the result is the end index of the first match found. *)
Fixpoint run (r : regex) (pos : nat) (rest : str)
         (k : nat -> str -> option nat) : option nat :=
  match r with
  | Lit c =>
    match rest with
    | d :: rest' => if d =? c then k (S pos) rest' else None
    | [] => None
    end
  | Set_ items =>
    match rest with
    | d :: rest' => if in_set items d then k (S pos) rest' else None
    | [] => None
    end
  | Cat r1 r2 => run r1 pos rest (fun pos' rest' => run r2 pos' rest' k)
  | Alt r1 r2 =>
    match run r1 pos rest k with
    | Some e => Some e
    | None => run r2 pos rest k
    end
  | Opt r1 =>
    match run r1 pos rest k with
    | Some e => Some e
    | None => k pos rest
    end
  | Bol => if Nat.eqb pos 0 then k pos rest else None
  | Eol => if at_end rest then k pos rest else None
  end.

(** [pattern.match(s)]: a match starting at index 0, or [None]. *)
Definition match_ (r : regex) (s : str) : option nat :=
  run r 0%nat s (fun pos _ => Some pos).

End Re.

Import Re.

Declare Scope re_scope.
Delimit Scope re_scope with re.
Bind Scope re_scope with regex.
Infix "·" := Cat (at level 40, left associativity) : re_scope.
Infix "|||" := Alt (at level 50, left associativity) : re_scope.
Notation "r ?" := (Opt r) (at level 1, format "r ?") : re_scope.

(** ** [SANParser._compile_patterns] *)

Section CompilePatterns.
Local Open Scope re_scope.

Definition letra : regex := Set_ [Range (ch "a") (ch "h")].
Definition numero : regex := Set_ [Range (ch "1") (ch "8")].
Definition casilla : regex := letra · numero.
Definition pieza : regex :=
  Set_ [One (ch "K"); One (ch "Q"); One (ch "R"); One (ch "B"); One (ch "N")].
Definition promocion : regex := Lit (ch "=") · pieza.
Definition jaque_mate : regex := Set_ [One (ch "+"); One (ch "#")].
Definition captura : regex := Lit (ch "x").
Definition desambiguacion : regex := letra ||| numero ||| letra · numero.

Definition enroque : regex :=
  Lit (ch "O") · Lit (ch "-") · Lit (ch "O") · Lit (ch "-") · Lit (ch "O")
  ||| Lit (ch "O") · Lit (ch "-") · Lit (ch "O").

Definition movimiento_pieza : regex :=
  pieza · desambiguacion? · captura? · casilla · promocion? · jaque_mate?.

Definition peon_avance : regex :=
  casilla · promocion? · jaque_mate?.

Definition peon_captura : regex :=
  letra · Lit (ch "x") · casilla · promocion? · jaque_mate?.

Definition movimiento_peon : regex := peon_captura ||| peon_avance.

Definition jugada : regex :=
  Bol · (enroque ||| movimiento_pieza ||| movimiento_peon) · Eol.

Definition _compile_patterns : regex := jugada.

End CompilePatterns.

(** ** The SAN grammar as the specification words it

    Languages are predicates on strings; the combinators follow the
    informal BNF: juxtaposition, [|], and [?]. *)

Module Grammar.

Definition lang := str -> Prop.

Definition tok (w : str) : lang := fun s => s = w.
Definition one (P : char -> Prop) : lang := fun s => exists c, s = [c] /\ P c.
Definition seq (L1 L2 : lang) : lang :=
  fun s => exists a b, s = a ++ b /\ L1 a /\ L2 b.
Definition alt (L1 L2 : lang) : lang := fun s => L1 s \/ L2 s.
Definition opt (L : lang) : lang := fun s => s = [] \/ L s.

Definition file : lang := one (fun c => ch "a" <= c <= ch "h").
Definition digit : lang := one (fun c => ch "1" <= c <= ch "8").
Definition square : lang := seq file digit.
Definition piece : lang :=
  one (fun c => c ∈ [ch "K"; ch "Q"; ch "R"; ch "B"; ch "N"]).
Definition disambig : lang := alt file (alt digit square).
Definition promotion : lang := seq (tok (py "=")) piece.
Definition check_mate : lang := alt (tok (py "+")) (tok (py "#")).
Definition castle : lang := alt (tok (py "O-O-O")) (tok (py "O-O")).
Definition piece_move : lang :=
  seq piece (seq (opt disambig) (seq (opt (tok (py "x")))
    (seq square (seq (opt promotion) (opt check_mate))))).
Definition pawn_adv : lang :=
  seq square (seq (opt promotion) (opt check_mate)).
Definition pawn_cap : lang :=
  seq file (seq (tok (py "x"))
    (seq square (seq (opt promotion) (opt check_mate)))).
Definition pawn_move : lang := alt pawn_cap pawn_adv.

(** [move]: the whole string is a castle, a piece move or a pawn move. *)
Definition move : lang := alt castle (alt piece_move pawn_move).

(** Two languages with the same words. *)
Definition lequiv : relation lang := pointwise_relation str iff.

End Grammar.

(** The language of a pattern without anchors, in the same combinators;
    the matcher is compared with it below. *)
Fixpoint plain (r : regex) : bool :=
  match r with
  | Lit _ | Set_ _ => true
  | Cat r1 r2 | Alt r1 r2 => plain r1 && plain r2
  | Opt r1 => plain r1
  | Bol | Eol => false
  end.

Fixpoint den (r : regex) : Grammar.lang :=
  match r with
  | Lit c => Grammar.tok [c]
  | Set_ items => Grammar.one (fun c => in_set items c = true)
  | Cat r1 r2 => Grammar.seq (den r1) (den r2)
  | Alt r1 r2 => Grammar.alt (den r1) (den r2)
  | Opt r1 => Grammar.opt (den r1)
  | Bol | Eol => Grammar.tok []
  end.

(** The alternation between the two anchors of [jugada]. *)
Definition jugada_body : regex :=
  (enroque ||| movimiento_pieza ||| movimiento_peon)%re.

(** Whole-string match of a pattern: the continuation accepts only when
    nothing is left. *)
Definition fullmatch (r : regex) (s : str) : bool :=
  match run r 0%nat s (fun pos rest => match rest with [] => Some pos | _ => None end) with
  | Some _ => true
  | None => false
  end.

(** Three readings of a pattern without anchors, used to bound what it
    accepts: the least and the greatest length of a word, whether every
    character it can read lies in a given bracket set, and where a given
    character can stand. *)
Fixpoint min_len (r : regex) : nat :=
  match r with
  | Lit _ | Set_ _ => 1
  | Cat r1 r2 => min_len r1 + min_len r2
  | Alt r1 r2 => Nat.min (min_len r1) (min_len r2)
  | Opt _ | Bol | Eol => 0
  end.

Fixpoint max_len (r : regex) : nat :=
  match r with
  | Lit _ | Set_ _ => 1
  | Cat r1 r2 => max_len r1 + max_len r2
  | Alt r1 r2 => Nat.max (max_len r1) (max_len r2)
  | Opt r1 => max_len r1
  | Bol | Eol => 0
  end.

Definition item_within (a : list item) (i : item) : bool :=
  match i with
  | One c => in_set a c
  | Range lo hi =>
      existsb (fun j => match j with
                        | Range lo' hi' => (lo' <=? lo) && (hi <=? hi')
                        | One _ => false
                        end) a
  end.

Fixpoint within (a : list item) (r : regex) : bool :=
  match r with
  | Lit c => in_set a c
  | Set_ items => forallb (item_within a) items
  | Cat r1 r2 | Alt r1 r2 => within a r1 && within a r2
  | Opt r1 => within a r1
  | Bol | Eol => true
  end.

(** No word of [r] contains [c]. *)
Fixpoint free_of (c : char) (r : regex) : bool :=
  match r with
  | Lit d => negb (d =? c)
  | Set_ items => negb (in_set items c)
  | Cat r1 r2 | Alt r1 r2 => free_of c r1 && free_of c r2
  | Opt r1 => free_of c r1
  | Bol | Eol => true
  end.

(** A word of [r] contains [c] at most as its last character. *)
Fixpoint only_last (c : char) (r : regex) : bool :=
  match r with
  | Lit _ | Set_ _ => true
  | Cat r1 r2 => free_of c r1 && only_last c r2
  | Alt r1 r2 => only_last c r1 && only_last c r2
  | Opt r1 => only_last c r1
  | Bol | Eol => true
  end.

(** The characters of SAN texts. *)
Definition san_alphabet : list item :=
  [Range (ch "a") (ch "h"); Range (ch "1") (ch "8");
   One (ch "K"); One (ch "Q"); One (ch "R"); One (ch "B"); One (ch "N");
   One (ch "O"); One (ch "-"); One (ch "x"); One (ch "="); One (ch "+");
   One (ch "#")].

(** ** The [chess] package, as far as the source uses it *)

Inductive outcome (A : Type) :=
| Ret (a : A)      (* normal completion *)
| Raise.           (* an [Exception] propagates *)
Arguments Ret {A} a.
Arguments Raise {A}.

Class ChessEngine := {
  Board : Type;
  Move : Type;
  Square : Type;
  Piece : Type;
  (** [chess.Board()]: a board in the initial position. *)
  new_board : Board;
  (** [board.parse_san(san)]: the move, or an exception; a query. *)
  parse_san : Board -> str -> outcome Move;
  (** [board.push(move)]: mutates the board; the second component is the
      state the board object is left in, also when the call raises. *)
  push : Board -> Move -> outcome unit * Board;
  (** [board.piece_at(square)]: [None] on an empty square. *)
  piece_at : Board -> Square -> option Piece;
  from_square : Move -> Square;
  to_square : Move -> Square;
  (** [piece.symbol().upper()]. *)
  symbol_upper : Piece -> str;
  (** [chess.square_name(square)]. *)
  square_name : Square -> str
}.

(** A small engine to run the model on: a board is the list of SAN texts
    pushed so far, every non-empty text that differs from ["??"] parses,
    pushing ["0000"] raises and leaves the board as it was, and every
    square holds a pawn. *)
Module StubEngine.

Definition stub_parse (b : list str) (san : str) : outcome str :=
  match san with
  | [] => Raise
  | _ => if decide (san = py "??") then Raise else Ret san
  end.

Definition stub_push (b : list str) (m : str) : outcome unit * list str :=
  if decide (m = py "0000") then (Raise, b) else (Ret tt, b ++ [m]).

#[local] Instance engine : ChessEngine := {|
  Board := list str;
  Move := str;
  Square := str;
  Piece := unit;
  new_board := [];
  parse_san := stub_parse;
  push := stub_push;
  piece_at := fun _ _ => Some tt;
  from_square := fun m => py "e2";
  to_square := fun m => m;
  symbol_upper := fun _ => py "P";
  square_name := fun sq => sq
|}.

End StubEngine.

(** An engine that shows what [play_move] does when [push] fails half
    way: every text parses, and [push] raises after it has put the move
    on the board. *)
Module LeakyEngine.

Definition leaky_push (b : list str) (m : str) : outcome unit * list str :=
  (Raise, b ++ [m]).

#[local] Instance engine : ChessEngine := {|
  Board := list str;
  Move := str;
  Square := str;
  Piece := unit;
  new_board := [];
  parse_san := fun _ san => Ret san;
  push := leaky_push;
  piece_at := fun _ _ => Some tt;
  from_square := fun m => m;
  to_square := fun m => m;
  symbol_upper := fun _ => py "P";
  square_name := fun sq => sq
|}.

End LeakyEngine.

(** ** The [SANParser] object and the program state *)

Definition loc := nat.

(** A turn is the tuple [(white_move, black_move)]; [black_move] may be
    [None]. *)
Abbreviation turn := (str * option str)%type.

(** Truth value of an optional string ([if black:]). *)
Definition truthy_opt (o : option str) : bool :=
  match o with
  | Some s => truthy s
  | None => false
  end.

(** Text of an object inside an f-string. *)
Definition fmt_opt (o : option str) : str :=
  match o with
  | Some s => s
  | None => py "None"
  end.

Section Program.
Context `{E : ChessEngine}.

(** The heap of board objects, the fields of the one [SANParser]
    instance, and what has been printed (one entry per [print]). *)
Record world := World {
  heap : gmap loc Board;
  move_pattern : regex;
  turns : list turn;
  board : loc;
  stdout : list str
}.

Definition set_heap (h : gmap loc Board) (w : world) : world :=
  World h (move_pattern w) (turns w) (board w) (stdout w).
Definition set_turns (t : list turn) (w : world) : world :=
  World (heap w) (move_pattern w) t (board w) (stdout w).
Definition set_stdout (o : list str) (w : world) : world :=
  World (heap w) (move_pattern w) (turns w) (board w) o.

(** Statements: state passing with exceptions; the state in which an
    exception is raised is kept. *)
Definition M (A : Type) : Type := world -> outcome A * world.

#[export] Instance M_ret : MRet M := fun A a w => (Ret a, w).
#[export] Instance M_bind : MBind M := fun A B f m w =>
  match m w with
  | (Ret a, w') => f a w'
  | (Raise, w') => (Raise, w')
  end.

Definition raise {A} : M A := fun w => (Raise, w).
Definition get : M world := fun w => (Ret w, w).
Definition modify (f : world -> world) : M unit := fun w => (Ret tt, f w).

(** [try: body except Exception: handler]. *)
Definition try_except {A} (body handler : M A) : M A := fun w =>
  match body w with
  | (Ret a, w') => (Ret a, w')
  | (Raise, w') => handler w'
  end.

(** [print(line)]. *)
Definition print (line : str) : M unit :=
  modify (fun w => set_stdout (stdout w ++ [line]) w).

(** Allocation of a new board object. *)
Definition alloc (b : Board) : M loc := fun w =>
  let l := fresh (dom (heap w)) in
  (Ret l, set_heap (<[l := b]> (heap w)) w).

(** The board object behind a reference. *)
Definition deref (l : loc) : M Board := fun w =>
  match heap w !! l with
  | Some b => (Ret b, w)
  | None => (Raise, w)
  end.

(** [SANParser.__init__], on a given heap. *)
Definition __init__ (h : gmap loc Board) : world :=
  let l := fresh (dom h) in
  {| heap := <[l := new_board]> h;
     move_pattern := _compile_patterns;
     turns := [];
     board := l;
     stdout := [] |}.

(** [bool(m)] for the result of [pattern.match]. *)
Definition bool_of_match (m : option nat) : bool :=
  match m with Some _ => true | None => false end.

(** [SANParser.validate_move]. *)
Definition validate_move (move : str) : M bool :=
  w ← get;
  mret (bool_of_match (match_ (move_pattern w) move)).

(** [SANParser.add_turn]. *)
Definition add_turn (white : str) (black : option str) : M unit :=
  modify (fun w => set_turns (turns w ++ [(white, black)]) w).

(** [parser.turns[-1] = (parser.turns[-1][0], black)], the statement by
    which [main] sets the black slot of the last turn (source lines 167
    and 172).  Indexing an empty list raises [IndexError]. *)
Definition set_last_black (black : option str) : M unit :=
  w ← get;
  match last (turns w) with
  | None => raise
  | Some t =>
      modify (set_turns (<[pred (length (turns w)) := (t.1, black)]> (turns w)))
  end.

(** [board.parse_san(san)] and [board.push(move)] on the object at [l]. *)
Definition parse_san_at (l : loc) (san : str) : M Move :=
  b ← deref l;
  match parse_san b san with
  | Ret mv => mret mv
  | Raise => raise
  end.

Definition push_at (l : loc) (mv : Move) : M unit :=
  b ← deref l;
  let '(r, b') := push b mv in
  modify (fun w => set_heap (<[l := b']> (heap w)) w);;
  match r with
  | Ret _ => mret tt
  | Raise => raise
  end.

(** [SANParser.play_move]. *)
Definition play_move (san_move : str) : M bool :=
  try_except
    (w ← get;
     move ← parse_san_at (board w) san_move;
     push_at (board w) move;;
     mret true)
    (mret false).

(** The nested function [_build_tree] of [generate_tree].  It reads
    [self.turns] and prints; the lines it prints are returned in order.
    [depth] only grows, so [len(turns) - depth] bounds the recursion; the
    interpreter's recursion limit is not modelled. *)
Equations? _build_tree (turns : list turn) (depth : nat) (prefix : str)
           (is_last : bool) : list str by wf (length turns - depth)%nat lt :=
  _build_tree turns depth prefix is_last with decide (length turns <= depth)%nat := {
    | left _ := [];
    | right Hlt with turns !! depth := {
      | None := [];
      | Some (white, black) :=
        let connector := if is_last then py "└── " else py "├── " in
        [prefix ++ connector ++ white]
        ++ (if truthy_opt black then
              let new_prefix :=
                prefix ++ (if is_last then py "    " else py "│   ") in
              [new_prefix ++ py "└── " ++ fmt_opt black]
              ++ _build_tree turns (S depth) (new_prefix ++ py "    ") false
            else
              _build_tree turns (S depth) (prefix ++ py "│   ") false)
        ++ (match decide (depth = 0%nat ∧ (1 < length turns)%nat) with
            | left _ =>
                _build_tree turns 1
                  (replace (replace prefix (py "├──") (py "│   "))
                           (py "└──") (py "    "))
                  true
            | right _ => []
            end)
      }
    }.
Proof. all: lia. Qed.

(** [SANParser.generate_tree]. *)
Definition generate_tree : M unit :=
  print (py "Partida");;
  w ← get;
  match turns w with
  | [] => mret tt
  | _ =>
      modify (fun w' =>
        set_stdout
          (stdout w' ++ _build_tree (turns w) 0 [] (Nat.eqb (length (turns w)) 1))
          w')
  end.

(** One ply of [display_result]: parse, describe, push. *)
Definition flatten_ply (l : loc) (san : str) (flat : list str)
  : M (list str) :=
  mv ← parse_san_at l san;
  b ← deref l;
  piece ← match piece_at b (from_square mv) with
          | Some p => mret (symbol_upper p)
          | None => raise
          end;
  let frm := square_name (from_square mv) in
  let to := square_name (to_square mv) in
  let flat' := flat ++ [piece ++ frm ++ py " " ++ to] in
  push_at l mv;;
  mret flat'.

(** The [for w, b in self.turns] loop of [display_result]. *)
Fixpoint flatten_loop (l : loc) (ts : list turn) (flat : list str)
  : M (list str) :=
  match ts with
  | [] => mret flat
  | (w, b) :: rest =>
      flat1 ← (if truthy w then flatten_ply l w flat else mret flat);
      flat2 ← (match b with
               | Some s => if truthy s then flatten_ply l s flat1
                           else mret flat1
               | None => mret flat1
               end);
      flatten_loop l rest flat2
  end.

(** [SANParser.display_result]. *)
Definition display_result : M unit :=
  w ← get;
  board_copy ← alloc new_board;
  flat ← flatten_loop board_copy (turns w) [];
  let parts := imap (fun i m => of_nat (S i) ++ py ". " ++ m) flat in
  print (join (py "  ") parts).

(** The walk of steps 2 to 4 of the renderer as the specification
    words it: a structural recursion over the turns that remain, with
    the indent prefix and the last-sibling flag as parameters, and
    without the variation rule. *)
Fixpoint render_turns (ts : list turn) (prefix : str) (is_last : bool)
  : list str :=
  match ts with
  | [] => []
  | (white, black) :: rest =>
      (prefix ++ (if is_last then py "└── " else py "├── ") ++ white)
      :: (if truthy_opt black then
            let deeper := prefix ++ (if is_last then py "    " else py "│   ") in
            (deeper ++ py "└── " ++ fmt_opt black)
            :: render_turns rest (deeper ++ py "    ") false
          else render_turns rest (prefix ++ py "│   ") false)
  end.

(** The replay of the flattener as the specification words it: a pure
    fold over the turns from a given board, returning the flattened
    moves (or a failure) and the board reached. *)
Definition replay_ply (b : Board) (san : str) (flat : list str)
  : outcome (list str) * Board :=
  match parse_san b san with
  | Raise => (Raise, b)
  | Ret mv =>
    match piece_at b (from_square mv) with
    | None => (Raise, b)
    | Some p =>
      let entry :=
        symbol_upper p ++ square_name (from_square mv) ++ py " "
        ++ square_name (to_square mv) in
      match push b mv with
      | (Ret _, b') => (Ret (flat ++ [entry]), b')
      | (Raise, b') => (Raise, b')
      end
    end
  end.

Definition replay_opt (b : Board) (san : option str) (flat : list str)
  : outcome (list str) * Board :=
  match san with
  | Some s => if truthy s then replay_ply b s flat else (Ret flat, b)
  | None => (Ret flat, b)
  end.

Fixpoint replay (b : Board) (ts : list turn) (flat : list str)
  : outcome (list str) * Board :=
  match ts with
  | [] => (Ret flat, b)
  | (w, bl) :: rest =>
    match replay_opt b (Some w) flat with
    | (Raise, b1) => (Raise, b1)
    | (Ret flat1, b1) =>
      match replay_opt b1 bl flat1 with
      | (Raise, b2) => (Raise, b2)
      | (Ret flat2, b2) => replay b2 rest flat2
      end
    end
  end.

(** The numbered line [display_result] prints for a flattened list. *)
Definition result_line (flat : list str) : str :=
  join (py "  ") (imap (fun i m => of_nat (S i) ++ py ". " ++ m) flat).

End Program.

(** ** The remaining methods and [main] *)

(** What the Python runtime decides by Unicode tables: whether a
    character is white space ([str.isspace]), and the case mappings
    [str.lower] and [str.upper]. *)
Class PyText := {
  isspace : char -> bool;
  lower : str -> str;
  upper : str -> str
}.

(** Two more queries of the [chess] package: [str(board)] and
    [board.is_checkmate()]. *)
Class ChessView (E : ChessEngine) := {
  board_str : Board -> str;
  is_checkmate : Board -> bool
}.

Module Text.

(** [s.split(sep)] for a one-character separator. *)
Fixpoint split_on (sep : char) (s : str) : list str :=
  match s with
  | [] => [[]]
  | c :: s' =>
    if c =? sep then [] :: split_on sep s'
    else match split_on sep s' with
         | r :: rs => (c :: r) :: rs
         | [] => [[c]]
         end
  end.

(** [str(i)] for an [int]. *)
Definition of_Z (i : Z) : str := py (pretty i).

(** [c in s] for a character. *)
Definition contains (c : char) (s : str) : bool := existsb (N.eqb c) s.

Section WhiteSpace.
Context `{T : PyText}.

(** [s.split()]: the maximal runs of characters that are not white
    space; [cur] is the run being read. *)
Fixpoint split_ws (cur : option str) (s : str) : list str :=
  match s with
  | [] => match cur with Some w => [w] | None => [] end
  | c :: s' =>
    if isspace c
    then match cur with Some w => [w] | None => [] end ++ split_ws None s'
    else split_ws (Some (default [] cur ++ [c])) s'
  end.

Definition split (s : str) : list str := split_ws None s.

Fixpoint lstrip (s : str) : str :=
  match s with
  | [] => []
  | c :: s' => if isspace c then lstrip s' else s
  end.

(** [s.strip()]. *)
Definition strip (s : str) : str := reverse (lstrip (reverse (lstrip s))).

End WhiteSpace.

End Text.

Import Text.

(** Stand-ins for the runtime tables and the two board queries, to run
    the model on: ASCII white space, ASCII case mapping, a one-row board
    text, and checkmate once four plies are on the stub board. *)
Module StubHost.

Definition ascii_space (c : char) : bool :=
  (c =? 32) || ((9 <=? c) && (c <=? 13)).

Definition ascii_lower (s : str) : str :=
  map (fun c => if (65 <=? c) && (c <=? 90) then c + 32 else c) s.

Definition ascii_upper (s : str) : str :=
  map (fun c => if (97 <=? c) && (c <=? 122) then c - 32 else c) s.

#[local] Instance text : PyText := {|
  isspace := ascii_space;
  lower := ascii_lower;
  upper := ascii_upper
|}.

Definition stub_board_str (b : list str) : str := join (py " ") b.

Definition stub_is_checkmate (b : list str) : bool := Nat.leb 4 (length b).

#[local] Instance view : ChessView StubEngine.engine :=
  @Build_ChessView StubEngine.engine stub_board_str stub_is_checkmate.

End StubHost.

Section Session.
Context `{E : ChessEngine} `{V : !ChessView E} `{T : PyText}.

(** [SANParser.display_moves]. *)
Definition display_moves : M unit :=
  w ← get;
  let lines :=
    imap (fun i '(wh, b) =>
            if truthy_opt b
            then of_nat (S i) ++ py ". " ++ wh ++ py " " ++ fmt_opt b
            else of_nat (S i) ++ py ". " ++ wh)
         (turns w) in
  print (join (py " ") lines).

(** [SANParser.print_board_with_labels]. *)
Definition print_board_with_labels : M unit :=
  w ← get;
  b ← deref (board w);
  let rows := split_on 10 (board_str b) in
  print (py "    a b c d e f g h");;
  print (py "  +-----------------+");;
  foldl (fun acc line => acc;; print line) (mret tt)
    (imap (fun i row =>
             of_Z (8 - Z.of_nat i) ++ py " | " ++ join (py " ") (split row)
             ++ py " |")
          rows);;
  print (py "  +-----------------+").

(** [SANParser.display_progress]. *)
Definition display_progress : M unit :=
  print [];;
  display_moves;;
  print ([10] ++ py "Estado actual del tablero:");;
  print_board_with_labels.

(** [parser.board.is_checkmate()]. *)
Definition session_is_checkmate : M bool :=
  w ← get;
  b ← deref (board w);
  mret (is_checkmate b).

(** [a and b] on two calls that return booleans. *)
Definition and_then (a b : M bool) : M bool :=
  a ≫= (fun x : bool => if x then b else mret false).

(** The two loops of [main] as one machine: every iteration of either
    loop starts by reading a line, [Blancas] is the outer loop up to the
    inner one, [Negras] the inner loop and the rest of the outer body. *)
Inductive phase := Blancas | Negras.

(** How an iteration leaves: on to the next prompt, or out of both loops
    by [break]. *)
Inductive next :=
| Again (ph : phase) (turn : nat)
| Done.

(** The test [# in m or parser.board.is_checkmate()] after a move [m]. *)
Definition mate_after (m : str) : M bool :=
  if contains (ch "#") m then mret true else session_is_checkmate.

(** An iteration of the outer loop, from the stripped line [cmd] on. *)
Definition iteration_blancas (turn : nat) (cmd : str) : M next :=
  if bool_decide (lower cmd = py "arbol") then
    generate_tree;; mret (Again Blancas turn)
  else if bool_decide (upper cmd = py "RESULTADO") then
    display_result;; mret (Again Blancas turn)
  else
    and_then (validate_move cmd) (play_move cmd) ≫= fun ok : bool =>
    if ok then
      add_turn cmd None;;
      display_progress;;
      mate_after cmd ≫= fun mate : bool =>
      if mate then
        print ([10] ++ py "¡Jaque mate detectado en movimiento de las Blancas ('"
               ++ cmd ++ py "')! Partida finalizada.");;
        mret Done
      else mret (Again Negras turn)
    else
      print (py "Jugada inválida para Blancas en el turno " ++ of_nat turn
             ++ py ": '" ++ cmd ++ py "'. Intenta de nuevo.");;
      mret (Again Blancas turn).

(** The outer body after the inner loop has left with [black]. *)
Definition after_negras (turn : nat) (black : option str) : M next :=
  (if truthy_opt black then mate_after (fmt_opt black) else mret false)
  ≫= fun mate : bool =>
  if mate then
    print ([10] ++ py "¡Jaque mate detectado en movimiento de las Negras ('"
           ++ fmt_opt black ++ py "')! Partida finalizada.");;
    mret Done
  else mret (Again Blancas (S turn)).

(** An iteration of the inner loop, from the stripped line [resp] on. *)
Definition iteration_negras (turn : nat) (resp : str) : M next :=
  if bool_decide (lower resp = py "arbol") then
    generate_tree;; mret (Again Negras turn)
  else if bool_decide (upper resp = py "RESULTADO") then
    display_result;; mret (Again Negras turn)
  else if negb (truthy resp) then
    set_last_black None;;
    display_progress;;
    after_negras turn None
  else
    and_then (validate_move resp) (play_move resp) ≫= fun ok : bool =>
    if ok then
      set_last_black (Some resp);;
      display_progress;;
      after_negras turn (Some resp)
    else
      print (py "Jugada inválida para Negras en el turno " ++ of_nat turn
             ++ py ": '" ++ resp
             ++ py "'. Intenta de nuevo o presiona enter para omitir.");;
      mret (Again Negras turn).

Definition iteration (ph : phase) : nat -> str -> M next :=
  match ph with
  | Blancas => iteration_blancas
  | Negras => iteration_negras
  end.

(** The text [input] writes before it reads. *)
Definition prompt (ph : phase) (turn : nat) : str :=
  match ph with
  | Blancas => py "Turno " ++ of_nat turn ++ py " - Jugada de las Blancas: "
  | Negras => py "Turno " ++ of_nat turn ++ py " - Jugada de las Negras: "
  end.

(** How [main] ends: by [break] after a checkmate, by the [EOFError] of
    [input] when no line is left, or by another exception. *)
Inductive ending := Finished | EndOfInput | Crashed.

(** The locals of [main] and the state at its end.  A prompt is kept
    with the number of lines printed before it. *)
Record session := Session {
  at_phase : phase;
  at_turn : nat;
  at_world : world;
  prompts : list (nat * str)
}.

(** The loops of [main] on the lines still to be read. *)
Fixpoint main_loop (inputs : list str) (ph : phase) (turn : nat)
         (pr : list (nat * str)) (w : world) : ending * session :=
  let pr' := pr ++ [(length (stdout w), prompt ph turn)] in
  match inputs with
  | [] => (EndOfInput, Session ph turn w pr')
  | line :: rest =>
    match iteration ph turn (strip line) w with
    | (Ret (Again ph' turn'), w') => main_loop rest ph' turn' pr' w'
    | (Ret Done, w') => (Finished, Session ph turn w' pr')
    | (Raise, w') => (Crashed, Session ph turn w' pr')
    end
  end.

(** [main], on a heap [h] and the lines of standard input. *)
Definition main (h : gmap loc Board) (inputs : list str) : ending * session :=
  match (print (py "Validación interactiva de una partida en SAN hasta jaque mate");;
         print ([10] ++ py "Tablero inicial:");;
         print_board_with_labels) (__init__ h) with
  | (Ret _, w) => main_loop inputs Blancas 1 [] w
  | (Raise, w) => (Crashed, Session Blancas 1 w [])
  end.

(** *** What the properties of the session are stated with *)

(** The moves of a ledger in play order: each white move, and each black
    move that is present. *)
Definition plies (ts : list turn) : list str :=
  flat_map (fun t : turn =>
              t.1 :: (if truthy_opt t.2 then [fmt_opt t.2] else [])) ts.

(** The moves [display_result] replays: the white and black moves that
    are present and not empty. *)
Definition replayed_moves (ts : list turn) : list str :=
  flat_map (fun t : turn =>
              (if truthy t.1 then [t.1] else [])
              ++ (if truthy_opt t.2 then [fmt_opt t.2] else [])) ts.

(** The last move of a ledger. *)
Definition last_move (ts : list turn) : option str :=
  match last ts with
  | Some t => Some (if truthy_opt t.2 then fmt_opt t.2 else t.1)
  | None => None
  end.

(** A text the compiled pattern of the source accepts. *)
Definition validated (s : str) : Prop :=
  bool_of_match (match_ _compile_patterns s) = true.

Definition turn_validated (t : turn) : Prop :=
  validated t.1 ∧ match t.2 with Some s => validated s | None => True end.

(** Two properties of the engine the session relies on: a [push] that
    raises on a parsed move leaves the board as it was, and the move
    parsed from a validated text starts on an occupied square. *)
Definition push_atomic : Prop :=
  ∀ b s mv b', parse_san b s = Ret mv → push b mv = (Raise, b') → b' = b.

Definition moved_piece_present : Prop :=
  ∀ b s mv, validated s → parse_san b s = Ret mv →
            is_Some (piece_at b (from_square mv)).

(** The ledger and the session board agree: the parser holds the
    compiled pattern, every stored move is validated, and the replay of
    the ledger from the initial position completes on the very board
    the session holds. *)
Definition consistent (w : world) : Prop :=
  move_pattern w = _compile_patterns
  ∧ Forall turn_validated (turns w)
  ∧ ∃ flat b, replay new_board (turns w) [] = (Ret flat, b)
              ∧ heap w !! board w = Some b.

(** What holds at a prompt: at a white prompt the ledger has [turn - 1]
    turns; at a black prompt it has [turn] turns and the last one has no
    black move yet. *)
Definition session_inv (ph : phase) (turn : nat) (w : world) : Prop :=
  consistent w
  ∧ match ph with
    | Blancas => S (length (turns w)) = turn
    | Negras => length (turns w) = turn
                ∧ ∃ ts wh, turns w = ts ++ [(wh, None)]
    end.

(** What holds when the loops are left by [break]: the last move of the
    ledger carries the mate mark, or the session board is checkmate. *)
Definition mate_reached (w : world) : Prop :=
  ∃ m b, last_move (turns w) = Some m ∧ heap w !! board w = Some b
         ∧ (contains (ch "#") m = true ∨ is_checkmate b = true).

(** The lines [print_board_with_labels] prints for a board. *)
Definition board_lines (b : Board) : list str :=
  [py "    a b c d e f g h"; py "  +-----------------+"]
  ++ imap (fun i row =>
             of_Z (8 - Z.of_nat i) ++ py " | " ++ join (py " ") (split row)
             ++ py " |")
          (split_on 10 (board_str b))
  ++ [py "  +-----------------+"].

End Session.

(** * Properties *)

(** ** The matcher against the language of a pattern *)

Section MatcherCorrect.
Import Grammar.

Lemma is_Some_orelse {A} (x y : option A) :
  is_Some (match x with Some e => Some e | None => y end)
  ↔ is_Some x ∨ is_Some y.
Proof.
  destruct x as [e|]; split.
  - intros _. left. by exists e.
  - intros _. by exists e.
  - intros H. by right.
  - intros [[e He]|H]; [discriminate | done].
Qed.

(** A plain pattern followed by a continuation matches exactly when the
    subject splits into a word of the pattern's language and a rest the
    continuation accepts. *)
Lemma run_plain (r : regex) :
  plain r = true →
  ∀ pos rest k,
    is_Some (run r pos rest k)
    ↔ ∃ a b, rest = a ++ b ∧ den r a ∧ is_Some (k (pos + length a)%nat b).
Proof.
  induction r as [c|items|r1 IH1 r2 IH2|r1 IH1 r2 IH2|r1 IH1| |];
    simpl; intros Hp pos rest k; try discriminate.
  - destruct rest as [|d rest'].
    + split; [intros [? ?]; discriminate|].
      intros (a & b & Hab & Ha & _). unfold tok in Ha. subst a. discriminate.
    + destruct (N.eqb_spec d c) as [->|Hne]; split.
      * intros Hk. exists [c], rest'. split; [done|]. split; [done|].
        by replace (pos + length [c])%nat with (S pos) by (simpl; lia).
      * intros (a & b & Hab & Ha & Hk). unfold tok in Ha. subst a.
        injection Hab as <-.
        by replace (pos + length [c])%nat with (S pos) in Hk by (simpl; lia).
      * intros [? ?]; discriminate.
      * intros (a & b & Hab & Ha & _). unfold tok in Ha. subst a.
        injection Hab as ? ?. congruence.
  - destruct rest as [|d rest'].
    + split; [intros [? ?]; discriminate|].
      intros (a & b & Hab & (c & -> & _) & _). discriminate.
    + destruct (in_set items d) eqn:Hin; split.
      * intros Hk. exists [d], rest'. split; [done|]. split.
        -- by exists d.
        -- by replace (pos + length [d])%nat with (S pos) by (simpl; lia).
      * intros (a & b & Hab & (c & -> & _) & Hk). injection Hab as <- <-.
        by replace (pos + length [d])%nat with (S pos) in Hk by (simpl; lia).
      * intros [? ?]; discriminate.
      * intros (a & b & Hab & (c & -> & Hc) & _). injection Hab as <- <-.
        congruence.
  - apply andb_prop in Hp as [Hp1 Hp2].
    rewrite (IH1 Hp1). split.
    + intros (a1 & b1 & -> & Ha1 & Hk). apply (IH2 Hp2) in Hk.
      destruct Hk as (a2 & b2 & -> & Ha2 & Hk).
      exists (a1 ++ a2), b2. split; [by rewrite app_assoc|]. split.
      * by exists a1, a2.
      * by rewrite length_app, Nat.add_assoc.
    + intros (a & b & -> & (a1 & a2 & -> & Ha1 & Ha2) & Hk).
      exists a1, (a2 ++ b). split; [by rewrite app_assoc|]. split; [done|].
      apply (IH2 Hp2). exists a2, b. split; [done|]. split; [done|].
      by rewrite length_app, Nat.add_assoc in Hk.
  - apply andb_prop in Hp as [Hp1 Hp2].
    rewrite is_Some_orelse, (IH1 Hp1), (IH2 Hp2). unfold alt. split.
    + intros [(a & b & ? & ? & ?)|(a & b & ? & ? & ?)];
        exists a, b; tauto.
    + intros (a & b & ? & [?|?] & ?); [left|right]; exists a, b; tauto.
  - rewrite is_Some_orelse, (IH1 Hp). unfold opt. split.
    + intros [(a & b & ? & ? & ?)|Hk].
      * exists a, b. tauto.
      * exists [], rest. simpl. rewrite Nat.add_0_r. auto.
    + intros (a & b & Hab & [->|Ha] & Hk).
      * right. simpl in *. subst. by rewrite Nat.add_0_r in Hk.
      * left. by exists a, b.
Qed.

End MatcherCorrect.

(** ** The pattern of the source against the grammar of the specification *)

Section PatternGrammar.
Import Grammar.

Infix "≡ₗ" := lequiv (at level 70).

#[local] Instance lequiv_equivalence : Equivalence lequiv.
Proof. unfold lequiv. apply _. Qed.

#[local] Instance seq_proper : Proper (lequiv ==> lequiv ==> lequiv) seq.
Proof.
  intros A A' HA B B' HB s. unfold seq. split;
    intros (a & b & -> & Ha & Hb); exists a, b;
    (split; [done|]); split; (apply HA || apply HB); done.
Qed.

#[local] Instance alt_proper : Proper (lequiv ==> lequiv ==> lequiv) alt.
Proof. intros A A' HA B B' HB s. unfold alt. by rewrite (HA s), (HB s). Qed.

#[local] Instance opt_proper : Proper (lequiv ==> lequiv) opt.
Proof. intros A A' HA s. unfold opt. by rewrite (HA s). Qed.

Lemma seq_assoc (A B C : lang) : seq (seq A B) C ≡ₗ seq A (seq B C).
Proof.
  intros s. unfold seq. split.
  - intros (ab & c & -> & (a & b & -> & Ha & Hb) & Hc).
    exists a, (b ++ c). rewrite app_assoc. eauto 10.
  - intros (a & bc & -> & Ha & (b & c & -> & Hb & Hc)).
    exists (a ++ b), c. rewrite app_assoc. eauto 10.
Qed.

Lemma alt_assoc (A B C : lang) : alt (alt A B) C ≡ₗ alt A (alt B C).
Proof. intros s. unfold alt. tauto. Qed.

Lemma seq_tok (a b : str) : seq (tok a) (tok b) ≡ₗ tok (a ++ b).
Proof.
  intros s. unfold seq, tok. split.
  - by intros (? & ? & -> & -> & ->).
  - intros ->. by exists a, b.
Qed.

Lemma one_ext (P Q : char → Prop) :
  (∀ c, P c ↔ Q c) → one P ≡ₗ one Q.
Proof.
  intros H s. unfold one. split; intros (c & -> & Hc); exists c;
    (split; [done|]); by apply H.
Qed.

Lemma den_letra : den letra ≡ₗ file.
Proof.
  apply one_ext. intros c. unfold in_set. simpl.
  rewrite orb_false_r, andb_true_iff, N.leb_le, N.leb_le. done.
Qed.

Lemma den_numero : den numero ≡ₗ digit.
Proof.
  apply one_ext. intros c. unfold in_set. simpl.
  rewrite orb_false_r, andb_true_iff, N.leb_le, N.leb_le. done.
Qed.

Lemma den_pieza : den pieza ≡ₗ piece.
Proof.
  apply one_ext. intros c. unfold in_set. simpl.
  rewrite !orb_true_iff, !N.eqb_eq, !elem_of_cons, elem_of_nil.
  intuition discriminate.
Qed.

Lemma den_jaque_mate : den jaque_mate ≡ₗ check_mate.
Proof.
  intros s. unfold check_mate, alt, tok. simpl. unfold one, in_set. simpl.
  split.
  - intros (c & -> & Hc).
    rewrite !orb_true_iff, !N.eqb_eq in Hc.
    destruct Hc as [->|[->|?]]; [by left|by right|done].
  - intros [->| ->]; eexists; (split; [reflexivity|]); reflexivity.
Qed.

Lemma den_casilla : den casilla ≡ₗ square.
Proof. unfold casilla, square. simpl. by rewrite den_letra, den_numero. Qed.

Lemma den_promocion : den promocion ≡ₗ promotion.
Proof. unfold promocion, promotion. simpl. by rewrite den_pieza. Qed.

Lemma den_desambiguacion : den desambiguacion ≡ₗ disambig.
Proof.
  unfold desambiguacion, disambig. simpl.
  rewrite alt_assoc, den_letra, den_numero. done.
Qed.

Lemma den_enroque : den enroque ≡ₗ castle.
Proof. unfold enroque, castle. simpl. by rewrite !seq_tok. Qed.

Lemma den_movimiento_pieza : den movimiento_pieza ≡ₗ piece_move.
Proof.
  unfold movimiento_pieza, piece_move.
  change (den (pieza · desambiguacion? · captura? · casilla · promocion?
               · jaque_mate?)%re)
    with (seq (seq (seq (seq (seq (den pieza) (opt (den desambiguacion)))
                             (opt (tok (py "x")))) (den casilla))
                   (opt (den promocion))) (opt (den jaque_mate))).
  rewrite !seq_assoc.
  by rewrite den_pieza, den_desambiguacion, den_casilla, den_promocion,
    den_jaque_mate.
Qed.

Lemma den_peon_avance : den peon_avance ≡ₗ pawn_adv.
Proof.
  unfold peon_avance, pawn_adv.
  change (den (casilla · promocion? · jaque_mate?)%re)
    with (seq (seq (den casilla) (opt (den promocion)))
              (opt (den jaque_mate))).
  rewrite !seq_assoc.
  by rewrite den_casilla, den_promocion, den_jaque_mate.
Qed.

Lemma den_peon_captura : den peon_captura ≡ₗ pawn_cap.
Proof.
  unfold peon_captura, pawn_cap.
  change (den (letra · Lit (ch "x") · casilla · promocion? · jaque_mate?)%re)
    with (seq (seq (seq (seq (den letra) (tok (py "x"))) (den casilla))
                   (opt (den promocion))) (opt (den jaque_mate))).
  rewrite !seq_assoc.
  by rewrite den_letra, den_casilla, den_promocion, den_jaque_mate.
Qed.

(** The alternation of the source denotes the grammar's [move]. *)
Lemma den_jugada_body : den jugada_body ≡ₗ move.
Proof.
  unfold jugada_body, move, pawn_move.
  change (den (enroque ||| movimiento_pieza ||| movimiento_peon)%re)
    with (alt (alt (den enroque) (den movimiento_pieza))
              (alt (den peon_captura) (den peon_avance))).
  rewrite alt_assoc.
  by rewrite den_enroque, den_movimiento_pieza, den_peon_captura,
    den_peon_avance.
Qed.

Lemma plain_jugada_body : plain jugada_body = true.
Proof. reflexivity. Qed.

(** [fullmatch] decides the grammar. *)
Lemma fullmatch_move (s : str) : fullmatch jugada_body s = true ↔ move s.
Proof.
  rewrite <- (den_jugada_body s). unfold fullmatch.
  pose proof (run_plain jugada_body plain_jugada_body 0%nat s
    (fun pos rest => match rest with [] => Some pos | _ => None end)) as H.
  split.
  - intros Hm.
    destruct (run jugada_body _ _ _) as [e|] eqn:Hr; [|discriminate].
    destruct H as [H _]. destruct H as (a & b & -> & Ha & Hb); [by exists e|].
    destruct b; [by rewrite app_nil_r | by destruct Hb].
  - intros Hd. destruct H as [_ H].
    destruct H as [e He].
    + exists s, []. rewrite app_nil_r. split; [done|]. split; [done|]. eauto.
    + by rewrite He.
Qed.

(** What [pattern.match] of the compiled pattern accepts: the words of
    the grammar, and also such a word followed by one newline. *)
Lemma match_compiled (s : str) :
  is_Some (match_ _compile_patterns s)
  ↔ move s ∨ ∃ s', s = s' ++ [10] ∧ move s'.
Proof.
  unfold match_, _compile_patterns, jugada.
  change (run (Bol · (enroque ||| movimiento_pieza ||| movimiento_peon) · Eol)%re
              0%nat s (fun pos _ => Some pos))
    with (run jugada_body 0%nat s
            (fun pos rest => if at_end rest then Some pos else None)).
  rewrite (run_plain jugada_body plain_jugada_body).
  split.
  - intros (a & b & -> & Ha & Hb). apply den_jugada_body in Ha.
    destruct b as [|c [|d b]]; simpl in Hb.
    + left. by rewrite app_nil_r.
    + right. destruct (N.eqb_spec c 10) as [->|]; [|by destruct Hb].
      by exists a.
    + by destruct Hb.
  - intros [Hm|(s' & -> & Hm)]; apply den_jugada_body in Hm.
    + exists s, []. rewrite app_nil_r. split; [done|]. split; [done|].
      simpl. eauto.
    + exists s', [10]. split; [done|]. split; [done|]. simpl. eauto.
Qed.

End PatternGrammar.

(** ** The grammar recogniser *)

Section Recogniser.
Context `{E : ChessEngine}.

(** [validate_move] reads the compiled pattern and nothing else. *)
Lemma validate_move_run (w : world) (s : str) :
  validate_move s w = (Ret (bool_of_match (match_ (move_pattern w) s)), w).
Proof. reflexivity. Qed.

Lemma bool_of_match_true (m : option nat) :
  bool_of_match m = true ↔ is_Some m.
Proof.
  destruct m; simpl; split; first [done | by eexists | by intros [? ?]].
Qed.

(** On a newly constructed parser, [validate_move] accepts the words of
    the grammar and the words of the grammar followed by one newline. *)
Lemma validate_move_iff (h : gmap loc Board) (s : str) :
  (validate_move s (__init__ h)).1 = Ret true
  ↔ Grammar.move s ∨ ∃ s', s = s' ++ [10] ∧ Grammar.move s'.
Proof.
  rewrite validate_move_run. simpl. rewrite <- match_compiled.
  rewrite <- bool_of_match_true. split; [by intros [= ->] | by intros ->].
Qed.

Ltac run_validate :=
  rewrite validate_move_run;
  change (move_pattern (__init__ _)) with _compile_patterns;
  vm_compute; reflexivity.

(** C5: each of the eleven acceptance examples is accepted by
    [validate_move] on a newly constructed parser. *)
Theorem validate_move_accepts (h : gmap loc Board) :
  Forall (fun s => (validate_move (py s) (__init__ h)).1 = Ret true)
    ["e4"; "Nf3"; "Bxc6"; "O-O"; "O-O-O"; "exd5"; "e8=Q"; "Qh4+"; "Rxf7#";
     "Nbd7"; "R1a3"]%string.
Proof. repeat (constructor; [run_validate|]). constructor. Qed.

(** C1, as the code has it: [validate_move] rejects the empty string,
    "e9", "e", "o-o", "Kx", "e4 " and "e4x"; it accepts "Ke4e5", which
    reads as a king, the disambiguating square e4 and the destination
    e5. *)
Theorem validate_move_rejects (h : gmap loc Board) :
  Forall (fun s => (validate_move (py s) (__init__ h)).1 = Ret false)
    [""; "e9"; "e"; "o-o"; "Kx"; "e4 "; "e4x"]%string
  ∧ (validate_move (py "Ke4e5") (__init__ h)).1 = Ret true.
Proof.
  split; [|run_validate].
  repeat (constructor; [run_validate|]). constructor.
Qed.

(** C9: in any two states that hold the same compiled pattern, whatever
    their ledgers, board objects and output, [validate_move] returns the
    same boolean for the same string, and each call leaves its whole
    state (compiled pattern, ledger, board objects, output) as it was.
    So the answer depends on the string and the pattern only, and calls
    made at any two moments of a session agree. *)
Theorem validate_move_deterministic (w1 w2 : world) (s : str) :
  move_pattern w1 = move_pattern w2 →
  ∃ b : bool,
    validate_move s w1 = (Ret b, w1) ∧ validate_move s w2 = (Ret b, w2).
Proof.
  intros Hpat. rewrite !validate_move_run, Hpat. eauto.
Qed.

End Recogniser.

(** C1, counterexample: "Ke4e5" is a word of the grammar (piece,
    square disambiguation, destination square) and [validate_move]
    returns true on it. *)
Lemma validate_move_Ke4e5 :
  (validate_move (E := StubEngine.engine) (py "Ke4e5") (__init__ ∅)).1
  = Ret true
  ∧ Grammar.move (py "Ke4e5").
Proof.
  split; [vm_compute; reflexivity|].
  apply fullmatch_move. vm_compute. reflexivity.
Qed.

(** C2, at the failing input: "e4" followed by a newline is not a word of
    the grammar, its proper prefix "e4" is, and [validate_move] returns
    true on it, for [$] also matches just before a final newline. *)
Theorem validate_move_trailing_newline :
  (validate_move (E := StubEngine.engine) (py "e4" ++ [10]) (__init__ ∅)).1
  = Ret true
  ∧ ¬ Grammar.move (py "e4" ++ [10])
  ∧ Grammar.move (py "e4").
Proof.
  split; [vm_compute; reflexivity|]. split.
  - rewrite <- fullmatch_move. vm_compute. discriminate.
  - apply fullmatch_move. vm_compute. reflexivity.
Qed.

(** ** The turn ledger *)

Section Ledger.
Context `{E : ChessEngine}.

Lemma add_turn_run (white : str) (black : option str) (w : world) :
  add_turn white black w = (Ret tt, set_turns (turns w ++ [(white, black)]) w).
Proof. reflexivity. Qed.

(** Setting the black slot rewrites the last tuple whatever it holds. *)
Lemma set_last_black_snoc (w : world) (ts : list turn) (white : str)
      (old black : option str) :
  set_last_black black (set_turns (ts ++ [(white, old)]) w)
  = (Ret tt, set_turns (ts ++ [(white, black)]) w).
Proof.
  unfold set_last_black, mbind, M_bind, get, modify. simpl.
  rewrite last_snoc. simpl. f_equal. unfold set_turns. simpl. f_equal.
  rewrite length_app. simpl.
  replace (pred (length ts + 1)) with (length ts + 0)%nat by lia.
  by rewrite insert_app_r.
Qed.

Lemma set_last_black_empty (w : world) (black : option str) :
  set_last_black black (set_turns [] w) = (Raise, set_turns [] w).
Proof. reflexivity. Qed.

(** C7: on a new parser, appending white "e4" and setting the last
    black to "e5" leaves exactly the turn (e4, e5); appending white
    "Nf3" after that leaves exactly two turns, the second with no black
    move. *)
Theorem ledger_e4_e5_Nf3 (h : gmap loc Board) :
  let first :=
    (add_turn (py "e4") None;; set_last_black (Some (py "e5"))) (__init__ h) in
  let second := add_turn (py "Nf3") None first.2 in
  first.1 = Ret tt
  ∧ turns first.2 = [(py "e4", Some (py "e5"))]
  ∧ second.1 = Ret tt
  ∧ turns second.2 = [(py "e4", Some (py "e5")); (py "Nf3", None)].
Proof. cbv zeta. repeat split. Qed.

End Ledger.

(** ** The variation tree renderer *)

Section Renderer.
Context `{E : ChessEngine}.

Lemma _build_tree_end (ts : list turn) (depth : nat) (prefix : str)
      (is_last : bool) :
  (length ts <= depth)%nat → _build_tree ts depth prefix is_last = [].
Proof.
  intros Hle. rewrite _build_tree_equation_1.
  destruct (decide (length ts <= depth)%nat); [|contradiction].
  apply _build_tree_clause_1_equation_1.
Qed.

Lemma _build_tree_step (ts : list turn) (depth : nat) (prefix : str)
      (is_last : bool) (white : str) (black : option str) :
  ts !! depth = Some (white, black) →
  _build_tree ts depth prefix is_last
  = [prefix ++ (if is_last then py "└── " else py "├── ") ++ white]
    ++ (if truthy_opt black then
          [(prefix ++ (if is_last then py "    " else py "│   "))
           ++ py "└── " ++ fmt_opt black]
          ++ _build_tree ts (S depth)
               ((prefix ++ (if is_last then py "    " else py "│   "))
                ++ py "    ") false
        else _build_tree ts (S depth) (prefix ++ py "│   ") false)
    ++ (match decide (depth = 0%nat ∧ (1 < length ts)%nat) with
        | left _ =>
            _build_tree ts 1
              (replace (replace prefix (py "├──") (py "│   "))
                       (py "└──") (py "    "))
              true
        | right _ => []
        end).
Proof.
  intros Hlook. rewrite _build_tree_equation_1.
  destruct (decide (length ts <= depth)%nat) as [Hle|Hlt].
  - apply lookup_lt_Some in Hlook. exfalso. lia.
  - rewrite _build_tree_clause_1_equation_2, Hlook.
    apply _build_tree_clause_1_clause_2_equation_1.
Qed.

(** Below the first turn the recursion is the plain walk over the turns
    that remain: the variation rule does not fire again. *)
Lemma _build_tree_deep (rest : list turn) :
  ∀ (done : list turn) (prefix : str) (is_last : bool),
    done ≠ [] →
    _build_tree (done ++ rest) (length done) prefix is_last
    = render_turns rest prefix is_last.
Proof.
  induction rest as [|[white black] rest IH]; intros done prefix is_last Hne.
  - apply _build_tree_end. rewrite length_app. simpl. lia.
  - rewrite (_build_tree_step _ _ _ _ white black)
      by (by rewrite lookup_app_r, Nat.sub_diag by lia).
    destruct (decide (length done = 0%nat ∧ _)) as [[H0 _]|_].
    { destruct done; [done | discriminate]. }
    rewrite app_nil_r.
    assert (Hnext : ∀ p l,
      _build_tree (done ++ (white, black) :: rest) (S (length done)) p l
      = render_turns rest p l).
    { intros p l.
      replace (done ++ (white, black) :: rest)
        with ((done ++ [(white, black)]) ++ rest) by (by rewrite <- app_assoc).
      replace (S (length done)) with (length (done ++ [(white, black)]))
        by (rewrite length_app; simpl; lia).
      apply IH. by destruct done. }
    rewrite !Hnext. simpl. by destruct (truthy_opt black).
Qed.

(** The call for the first turn: the whole walk, and after it, when a
    second turn exists, the walk from turn index 1 once more. *)
Lemma _build_tree_top (t0 : turn) (rest : list turn) (prefix : str)
      (is_last : bool) :
  _build_tree (t0 :: rest) 0 prefix is_last
  = render_turns (t0 :: rest) prefix is_last
    ++ (match rest with
        | [] => []
        | _ =>
          render_turns rest
            (replace (replace prefix (py "├──") (py "│   "))
                     (py "└──") (py "    "))
            true
        end).
Proof.
  destruct t0 as [white black].
  rewrite (_build_tree_step _ _ _ _ white black) by done.
  pose proof (_build_tree_deep rest [(white, black)]) as Hdeep.
  simpl in Hdeep. rewrite !Hdeep by done.
  destruct (decide (0%nat = 0%nat ∧ _)) as [[_ Hlen]|Hno].
  - destruct rest as [|t1 rest]; [simpl in Hlen; lia|].
    simpl. by destruct (truthy_opt black).
  - destruct rest as [|t1 rest]; [|exfalso; apply Hno; simpl; split; lia].
    simpl. by destruct (truthy_opt black).
Qed.

Lemma generate_tree_run (w : world) :
  generate_tree w
  = (Ret tt,
     set_stdout
       (stdout w ++ [py "Partida"]
        ++ match turns w with
           | [] => []
           | t0 :: rest =>
               _build_tree (t0 :: rest) 0 []
                 (Nat.eqb (length (t0 :: rest)) 1)
           end) w).
Proof.
  unfold generate_tree, print, mbind, M_bind, get, modify, mret, M_ret.
  destruct w as [h p ts b o]. unfold set_stdout. simpl.
  destruct ts as [|t0 rest]; simpl.
  - reflexivity.
  - by rewrite <- app_assoc.
Qed.

(** C4: with two or more turns the output is the root label, the first
    turn with its subtree (the continuation nested under the first
    turn's indent, not marked last), and then, once, the continuation
    from turn index 1 again under the empty prefix and marked last; the
    walk [render_turns] has no variation rule, so nothing more follows.
    With one turn the output is the root label and that turn only. *)
Theorem generate_tree_variation (w : world) (white : str)
        (black : option str) (t1 : turn) (rest : list turn) :
  let nested :=
    if truthy_opt black then py "│   " ++ py "    " else py "│   " in
  stdout (generate_tree (set_turns ((white, black) :: t1 :: rest) w)).2
  = stdout w
    ++ [py "Partida"; py "├── " ++ white]
    ++ (if truthy_opt black then [py "│   └── " ++ fmt_opt black] else [])
    ++ render_turns (t1 :: rest) nested false
    ++ render_turns (t1 :: rest) [] true
  ∧ stdout (generate_tree (set_turns [(white, black)] w)).2
    = stdout w ++ [py "Partida"] ++ render_turns [(white, black)] [] true.
Proof.
  cbv zeta. rewrite !generate_tree_run. split.
  - cbn [turns set_turns stdout set_stdout snd].
    rewrite _build_tree_top.
    change (replace (replace [] (py "├──") (py "│   ")) (py "└──") (py "    "))
      with (@nil char).
    change (Nat.eqb (length ((white, black) :: t1 :: rest)) 1)
      with (Nat.eqb (S (length rest)) 0).
    simpl (Nat.eqb _ _).
    cbn [render_turns]. cbn [app]. simpl.
    destruct (truthy_opt black); simpl; rewrite <- ?app_assoc; reflexivity.
  - cbn [turns set_turns stdout set_stdout snd].
    rewrite _build_tree_top. simpl. by rewrite app_nil_r.
Qed.

(** C6: the ledger with the one turn (e4, e5) renders as "Partida",
    "└── e4" and, one level deeper, "    └── e5"; the empty ledger
    renders as "Partida" alone. *)
Theorem generate_tree_e4_e5 (w : world) :
  stdout (generate_tree (set_turns [(py "e4", Some (py "e5"))] w)).2
  = stdout w ++ [py "Partida"; py "└── e4"; py "    └── e5"]
  ∧ stdout (generate_tree (set_turns [] w)).2
    = stdout w ++ [py "Partida"].
Proof.
  rewrite !generate_tree_run. split.
  - cbn [turns set_turns stdout set_stdout snd].
    rewrite _build_tree_top. f_equal.
  - cbn [turns set_turns stdout set_stdout snd]. by rewrite app_nil_r.
Qed.

End Renderer.

(** ** Playing a move on the session board *)

Section PlayMove.
Context `{E : ChessEngine}.

Lemma set_heap_id (w : world) (l : loc) (b : Board) :
  heap w !! l = Some b → set_heap (<[l := b]> (heap w)) w = w.
Proof.
  intros Hl. destruct w as [h p ts bd o]. unfold set_heap. simpl in *.
  by rewrite insert_id.
Qed.

(** What [play_move] does, by the outcome of the two engine calls. *)
Lemma play_move_run (w : world) (san : str) (b : Board) :
  heap w !! board w = Some b →
  play_move san w
  = match parse_san b san with
    | Raise => (Ret false, w)
    | Ret mv =>
      match push b mv with
      | (Ret _, b') => (Ret true, set_heap (<[board w := b']> (heap w)) w)
      | (Raise, b') => (Ret false, set_heap (<[board w := b']> (heap w)) w)
      end
    end.
Proof.
  intros Hb.
  unfold play_move, try_except, parse_san_at, push_at, deref, mbind, M_bind,
    get, modify, raise, mret, M_ret.
  rewrite Hb. destruct (parse_san b san) as [mv|]; [|done].
  rewrite Hb. destruct (push b mv) as [[[]|] b']; done.
Qed.


End PlayMove.


(** ** The move flattener *)

Section Flattener.
Context `{E : ChessEngine}.

Lemma flatten_ply_run (l : loc) (san : str) (flat : list str) (w : world)
      (b : Board) :
  heap w !! l = Some b →
  flatten_ply l san flat w
  = ((replay_ply b san flat).1,
     set_heap (<[l := (replay_ply b san flat).2]> (heap w)) w).
Proof.
  intros Hl.
  unfold flatten_ply, replay_ply, parse_san_at, push_at, deref, mbind,
    M_bind, get, modify, raise, mret, M_ret.
  rewrite Hl. destruct (parse_san b san) as [mv|]; simpl;
    [|by rewrite set_heap_id].
  rewrite Hl. destruct (piece_at b (from_square mv)) as [p|]; simpl;
    [|by rewrite set_heap_id].
  rewrite Hl. by destruct (push b mv) as [[[]|] b'].
Qed.

Lemma flatten_opt_run (l : loc) (san : option str) (flat : list str)
      (w : world) (b : Board) :
  heap w !! l = Some b →
  match san with
  | Some s => if truthy s then flatten_ply l s flat else mret flat
  | None => mret flat
  end w
  = ((replay_opt b san flat).1,
     set_heap (<[l := (replay_opt b san flat).2]> (heap w)) w).
Proof.
  intros Hl. unfold replay_opt. destruct san as [s|].
  - destruct (truthy s).
    + by apply flatten_ply_run.
    + simpl. by rewrite set_heap_id.
  - simpl. by rewrite set_heap_id.
Qed.

Lemma set_heap_twice (w : world) (l : loc) (b1 b2 : Board) :
  set_heap (<[l := b2]> (heap (set_heap (<[l := b1]> (heap w)) w)))
           (set_heap (<[l := b1]> (heap w)) w)
  = set_heap (<[l := b2]> (heap w)) w.
Proof. unfold set_heap. simpl. by rewrite insert_insert_eq. Qed.

(** The loop of [display_result] is the pure replay, run on the board
    object at [l]; nothing else of the state changes. *)
Lemma flatten_loop_run (ts : list turn) :
  ∀ (l : loc) (flat : list str) (w : world) (b : Board),
    heap w !! l = Some b →
    flatten_loop l ts flat w
    = ((replay b ts flat).1,
       set_heap (<[l := (replay b ts flat).2]> (heap w)) w).
Proof.
  induction ts as [|[wh bl] rest IH]; intros l flat w b Hl.
  - simpl. by rewrite set_heap_id.
  - cbn [flatten_loop replay].
    unfold mbind, M_bind.
    pose proof (flatten_opt_run l (Some wh) flat w b Hl) as H1.
    cbn beta iota in H1. rewrite H1. clear H1.
    destruct (replay_opt b (Some wh) flat) as [[flat1|] b1]; [|done].
    cbn [fst snd].
    set (w1 := set_heap (<[l := b1]> (heap w)) w).
    assert (Hl1 : heap w1 !! l = Some b1) by apply lookup_insert_eq.
    rewrite (flatten_opt_run l bl flat1 w1 b1 Hl1).
    destruct (replay_opt b1 bl flat1) as [[flat2|] b2]; cbn [fst snd].
    + set (w2 := set_heap (<[l := b2]> (heap w1)) w1).
      assert (Hl2 : heap w2 !! l = Some b2) by apply lookup_insert_eq.
      rewrite (IH l flat2 w2 b2 Hl2). f_equal.
      subst w2 w1. by rewrite !set_heap_twice.
    + subst w1. by rewrite set_heap_twice.
Qed.

(** [display_result] in one step: the replay starts from [new_board] on
    a newly allocated board object. *)
Lemma display_result_run (w : world) :
  let l := fresh (dom (heap w)) in
  let r := replay new_board (turns w) [] in
  display_result w
  = (match r.1 with Ret _ => Ret tt | Raise => Raise end,
     World (<[l := r.2]> (heap w)) (move_pattern w) (turns w) (board w)
           (match r.1 with
            | Ret flat => stdout w ++ [result_line flat]
            | Raise => stdout w
            end)).
Proof.
  cbv zeta. unfold display_result, alloc, get, print, modify, mbind, M_bind.
  set (l := fresh (dom (heap w))).
  set (w0 := set_heap (<[l := new_board]> (heap w)) w).
  assert (Hl : heap w0 !! l = Some new_board) by apply lookup_insert_eq.
  rewrite (flatten_loop_run (turns w) l [] w0 new_board Hl).
  destruct (replay new_board (turns w) []) as [[flat|] bf]; cbn [fst snd];
    subst w0; rewrite set_heap_twice; reflexivity.
Qed.

(** C8: [display_result] replays the ledger from [new_board] on a board
    object that did not exist before the call; the ledger, the
    reference to the session board, the session board itself and every
    other board object that existed are as before, whether the replay
    completes or raises. *)
Theorem display_result_frame (w : world) :
  is_Some (heap w !! board w) →
  let after := (display_result w).2 in
  let l := fresh (dom (heap w)) in
  turns after = turns w
  ∧ board after = board w
  ∧ move_pattern after = move_pattern w
  ∧ heap after !! board after = heap w !! board w
  ∧ (∀ l', l' ≠ l → heap after !! l' = heap w !! l')
  ∧ heap w !! l = None
  ∧ heap after !! l = Some (replay new_board (turns w) []).2
  ∧ (display_result w).1
    = match (replay new_board (turns w) []).1 with
      | Ret _ => Ret tt
      | Raise => Raise
      end
  ∧ stdout after
    = match (replay new_board (turns w) []).1 with
      | Ret flat => stdout w ++ [result_line flat]
      | Raise => stdout w
      end.
Proof.
  intros Hsess. cbv zeta. rewrite display_result_run. cbn [fst snd].
  cbn [turns board move_pattern heap stdout].
  assert (Hfresh : heap w !! fresh (dom (heap w)) = None).
  { apply not_elem_of_dom, is_fresh. }
  repeat split; try done.
  - apply lookup_insert_ne. intros Heq. rewrite <- Heq, Hfresh in Hsess.
    by destruct Hsess.
  - intros l' Hne. by apply lookup_insert_ne.
  - apply lookup_insert_eq.
Qed.

End Flattener.

(** ** The model run on the stub engine *)

Section Runs.
Import StubEngine.
#[local] Existing Instance engine.

(** The stub's [push] raises only on ["0000"], and then returns the
    board it was given. *)
Lemma stub_push_atomic (b : list str) (s mv : str) (b' : list str) :
  parse_san (ChessEngine := engine) b s = Ret mv →
  push (ChessEngine := engine) b mv = (Raise, b') → b' = b.
Proof.
  intros _. simpl. unfold stub_push.
  destruct (decide (mv = py "0000")); congruence.
Qed.

Example replace_connectors :
  replace (replace (py "│   ├── └── ") (py "├──") (py "│   "))
          (py "└──") (py "    ")
  = py "│   │         ".
Proof. vm_compute. reflexivity. Qed.

Example replace_empty_old : replace (py "ab") [] (py "-") = py "-a-b-".
Proof. vm_compute. reflexivity. Qed.

(** The second renderer scenario of the specification. *)
Example generate_tree_two_turns :
  stdout
    (generate_tree
       (set_turns [(py "e4", Some (py "e5")); (py "Nf3", None)]
                  (__init__ ∅))).2
  = [py "Partida";
     py "├── e4";
     py "│   └── e5";
     py "│       ├── Nf3";
     py "└── Nf3"].
Proof.
  rewrite generate_tree_run. cbn [turns set_turns stdout set_stdout snd].
  rewrite _build_tree_top. vm_compute. reflexivity.
Qed.

Example display_result_stub :
  stdout
    (display_result
       (set_turns [(py "e4", Some (py "e5"))] (__init__ ∅))).2
  = [py "1. Pe2 e4  2. Pe2 e5"].
Proof. vm_compute. reflexivity. Qed.


(** Witness for [display_result_frame]: on the stub engine, a new parser
    holding the turn (e4, e5). *)
Lemma display_result_frame_witness :
  let w := set_turns [(py "e4", Some (py "e5"))] (__init__ ∅) in
  let after := (display_result w).2 in
  let l := fresh (dom (heap w)) in
  is_Some (heap w !! board w)
  ∧ turns after = turns w
  ∧ board after = board w
  ∧ move_pattern after = move_pattern w
  ∧ heap after !! board after = heap w !! board w
  ∧ (∀ l', l' ≠ l → heap after !! l' = heap w !! l')
  ∧ heap w !! l = None
  ∧ heap after !! l = Some (replay new_board (turns w) []).2
  ∧ (display_result w).1
    = match (replay new_board (turns w) []).1 with
      | Ret _ => Ret tt
      | Raise => Raise
      end
  ∧ stdout after
    = match (replay new_board (turns w) []).1 with
      | Ret flat => stdout w ++ [result_line flat]
      | Raise => stdout w
      end.
Proof.
  cbv zeta.
  assert (Hs : is_Some
    (heap (set_turns [(py "e4", Some (py "e5"))] (__init__ ∅))
     !! board (set_turns [(py "e4", Some (py "e5"))] (__init__ ∅)))).
  { exists []. vm_compute. reflexivity. }
  split; [exact Hs|].
  exact (display_result_frame _ Hs).
Defined.

End Runs.

(** ** Printing the progress *)

Section Views.
Context `{E : ChessEngine} `{V : !ChessView E} `{T : PyText}.

Lemma bind_ret_run {A B} (m : M A) (f : A → M B) (w w' : world) (a : A) :
  m w = (Ret a, w') → (m ≫= f) w = f a w'.
Proof. intros H. unfold mbind, M_bind. by rewrite H. Qed.

Lemma bind_raise_run {A B} (m : M A) (f : A → M B) (w w' : world) :
  m w = (Raise, w') → (m ≫= f) w = (Raise, w').
Proof. intros H. unfold mbind, M_bind. by rewrite H. Qed.

Lemma print_run (line : str) (w : world) :
  print line w = (Ret tt, set_stdout (stdout w ++ [line]) w).
Proof. reflexivity. Qed.

Lemma set_stdout_twice (w : world) (o1 o2 : list str) :
  set_stdout o2 (set_stdout o1 w) = set_stdout o2 w.
Proof. reflexivity. Qed.

Lemma set_stdout_same (w : world) : set_stdout (stdout w) w = w.
Proof. by destruct w. Qed.

(** A loop of [print] calls appends the lines in order. *)
Lemma print_all_run (lines : list str) :
  ∀ (acc : M unit) (w : world) (pre : list str),
    acc w = (Ret tt, set_stdout (stdout w ++ pre) w) →
    foldl (fun acc line => acc;; print line) acc lines w
    = (Ret tt, set_stdout (stdout w ++ pre ++ lines) w).
Proof.
  induction lines as [|line lines IH]; intros acc w pre Hacc.
  - simpl. by rewrite app_nil_r.
  - simpl. rewrite (IH _ w (pre ++ [line])).
    + by rewrite <- app_assoc.
    + rewrite (bind_ret_run _ _ _ _ _ Hacc), print_run.
      cbn [stdout set_stdout]. by rewrite set_stdout_twice, <- app_assoc.
Qed.

Lemma print_board_with_labels_run (w : world) (b : Board) :
  heap w !! board w = Some b →
  print_board_with_labels w
  = (Ret tt, set_stdout (stdout w ++ board_lines b) w).
Proof.
  intros Hb. unfold print_board_with_labels, board_lines.
  set (rows := imap _ (split_on 10 (board_str b))).
  rewrite (bind_ret_run get _ w w w) by reflexivity.
  assert (Hd : deref (board w) w = (Ret b, w)) by (unfold deref; by rewrite Hb).
  rewrite (bind_ret_run _ _ _ _ _ Hd).
  rewrite (bind_ret_run _ _ _ _ _ (print_run _ w)).
  rewrite (bind_ret_run _ _ _ _ _ (print_run _ _)).
  cbn [stdout set_stdout]. rewrite set_stdout_twice.
  set (w2 := set_stdout _ w).
  pose proof (print_all_run rows (mret tt) w2 []) as Hrows.
  rewrite app_nil_r in Hrows. rewrite app_nil_l in Hrows.
  rewrite (bind_ret_run _ _ _ _ _ (Hrows ltac:(by rewrite set_stdout_same))).
  rewrite print_run. subst w2. cbn [stdout set_stdout].
  rewrite !set_stdout_twice. f_equal. f_equal.
  by rewrite <- !app_assoc.
Qed.

Lemma print_board_with_labels_dangling (w : world) :
  heap w !! board w = None → print_board_with_labels w = (Raise, w).
Proof.
  intros Hb. unfold print_board_with_labels.
  rewrite (bind_ret_run get _ w w w) by reflexivity.
  apply bind_raise_run. unfold deref. by rewrite Hb.
Qed.

(** The line [display_moves] prints for a ledger. *)
Lemma display_moves_run (w : world) :
  display_moves w
  = (Ret tt,
     set_stdout
       (stdout w
        ++ [join (py " ")
              (imap (fun i '(wh, b) =>
                       if truthy_opt b
                       then of_nat (S i) ++ py ". " ++ wh ++ py " " ++ fmt_opt b
                       else of_nat (S i) ++ py ". " ++ wh)
                    (turns w))]) w).
Proof. reflexivity. Qed.

Lemma display_progress_run (w : world) (b : Board) :
  heap w !! board w = Some b →
  ∃ lines, display_progress w = (Ret tt, set_stdout (stdout w ++ lines) w).
Proof.
  intros Hb. unfold display_progress.
  rewrite (bind_ret_run _ _ _ _ _ (print_run _ w)).
  rewrite (bind_ret_run _ _ _ _ _ (display_moves_run _)).
  rewrite (bind_ret_run _ _ _ _ _ (print_run _ _)).
  rewrite (print_board_with_labels_run _ b) by done.
  cbn [stdout set_stdout turns]. rewrite !set_stdout_twice.
  eexists. rewrite <- !app_assoc. reflexivity.
Qed.

End Views.

(** ** The session: what every iteration of [main] keeps *)

Section SessionInvariant.
Context `{E : ChessEngine} `{V : !ChessView E} `{T : PyText}.

Lemma validated_truthy (s : str) : validated s → truthy s = true.
Proof. destruct s; [intros H; vm_compute in H; discriminate | done]. Qed.

Lemma consistent_set_stdout (w : world) (o : list str) :
  consistent w → consistent (set_stdout o w).
Proof. by unfold consistent. Qed.

Lemma consistent_set_heap (w : world) (l : loc) (b : Board) :
  l ≠ board w → consistent w → consistent (set_heap (<[l := b]> (heap w)) w).
Proof.
  intros Hne (Hpat & Hval & flat & b0 & Hrep & Hb).
  split; [done|]. split; [done|]. exists flat, b0. split; [done|].
  cbn [heap set_heap board]. by rewrite lookup_insert_ne.
Qed.

Lemma replay_snoc (ts : list turn) (wh : str) (bl : option str) :
  ∀ (b0 : Board) (fl : list str),
    replay b0 (ts ++ [(wh, bl)]) fl
    = match replay b0 ts fl with
      | (Ret f1, b1) =>
        match replay_opt b1 (Some wh) f1 with
        | (Ret f2, b2) => replay_opt b2 bl f2
        | (Raise, b2) => (Raise, b2)
        end
      | (Raise, b1) => (Raise, b1)
      end.
Proof.
  induction ts as [|[w0 bl0] ts IH]; intros b0 fl.
  - cbn [app replay].
    destruct (replay_opt b0 (Some wh) fl) as [[f1|] b1]; [|done].
    by destruct (replay_opt b1 bl f1) as [[f2|] b2].
  - cbn [app replay].
    destruct (replay_opt b0 (Some w0) fl) as [[f1|] b1]; [|done].
    destruct (replay_opt b1 bl0 f1) as [[f2|] b2]; [|done].
    apply IH.
Qed.

(** One more ply on a consistent pair of ledger history and board. *)
Lemma replay_ply_played (Hpiece : moved_piece_present) (b b' : Board)
      (s : str) (mv : Move) (fl : list str) :
  validated s → parse_san b s = Ret mv → push b mv = (Ret tt, b') →
  ∃ fl', replay_opt b (Some s) fl = (Ret fl', b').
Proof.
  intros Hv Hparse Hp. unfold replay_opt, replay_ply.
  rewrite (validated_truthy s Hv), Hparse.
  destruct (Hpiece b s mv Hv Hparse) as [p ->]. rewrite Hp. eauto.
Qed.

Lemma set_last_black_last (w : world) (ts : list turn) (wh : str)
      (old black : option str) :
  turns w = ts ++ [(wh, old)] →
  set_last_black black w = (Ret tt, set_turns (ts ++ [(wh, black)]) w).
Proof.
  intros Ht. destruct w as [h p tu bd o]. simpl in Ht. subst tu.
  apply (set_last_black_snoc (World h p [] bd o)).
Qed.

Lemma generate_tree_prints (w : world) :
  ∃ lines, generate_tree w = (Ret tt, set_stdout (stdout w ++ lines) w).
Proof. rewrite generate_tree_run. eauto. Qed.

(** On a consistent state [display_result] completes, and the state
    stays consistent with the same ledger and session board. *)
Lemma display_result_consistent (w : world) :
  consistent w →
  ∃ w', display_result w = (Ret tt, w')
        ∧ consistent w' ∧ turns w' = turns w ∧ board w' = board w
        ∧ heap w' !! board w' = heap w !! board w.
Proof.
  intros (Hpat & Hval & flat & b & Hrep & Hb).
  pose proof (display_result_run w) as Hrun. cbv zeta in Hrun.
  rewrite Hrep in Hrun. cbn [fst snd] in Hrun.
  eexists. split; [exact Hrun|].
  assert (Hne : fresh (dom (heap w)) ≠ board w).
  { intros Heq. pose proof (is_fresh (dom (heap w))) as Hf.
    rewrite Heq in Hf. apply Hf, elem_of_dom. by exists b. }
  cbn [turns board heap move_pattern].
  split_and!; try done.
  - split; [done|]. split; [done|]. exists flat, b. split; [done|].
    cbn [turns board heap]. by rewrite lookup_insert_ne.
  - by rewrite lookup_insert_ne.
Qed.

(** [validate_move(s) and play_move(s)] on a consistent state: either
    both succeed and the session board is advanced by the parsed move,
    or the state is left as it was. *)
Lemma attempt_run (Hpush : push_atomic) (w : world) (s : str) (b : Board) :
  move_pattern w = _compile_patterns →
  heap w !! board w = Some b →
  (∃ mv b', validated s ∧ parse_san b s = Ret mv ∧ push b mv = (Ret tt, b')
            ∧ and_then (validate_move s) (play_move s) w
              = (Ret true, set_heap (<[board w := b']> (heap w)) w))
  ∨ and_then (validate_move s) (play_move s) w = (Ret false, w).
Proof.
  intros Hpat Hb. unfold and_then.
  rewrite (bind_ret_run _ _ _ _ _ (validate_move_run w s)). rewrite Hpat.
  destruct (bool_of_match (match_ _compile_patterns s)) eqn:Hv; [|by right].
  rewrite (play_move_run w s b Hb).
  destruct (parse_san b s) as [mv|] eqn:Hparse; [|by right].
  destruct (push b mv) as [[[]|] b'] eqn:Hp.
  - left. by exists mv, b'.
  - right. rewrite (Hpush b s mv b' Hparse Hp). by rewrite set_heap_id.
Qed.

Lemma mate_after_run (w : world) (b : Board) (m : str) :
  heap w !! board w = Some b →
  mate_after m w = (Ret (contains (ch "#") m || is_checkmate b), w).
Proof.
  intros Hb. unfold mate_after. destruct (contains (ch "#") m); [done|].
  unfold session_is_checkmate.
  rewrite (bind_ret_run get _ w w w) by reflexivity.
  assert (Hd : deref (board w) w = (Ret b, w)) by (unfold deref; by rewrite Hb).
  by rewrite (bind_ret_run _ _ _ _ _ Hd).
Qed.

(** A white move that was validated and played, once appended, leaves
    ledger and board consistent. *)
Lemma played_white (Hpiece : moved_piece_present) (w : world) (b b' : Board)
      (s : str) (mv : Move) :
  consistent w → heap w !! board w = Some b →
  validated s → parse_san b s = Ret mv → push b mv = (Ret tt, b') →
  consistent (set_turns (turns w ++ [(s, None)])
                (set_heap (<[board w := b']> (heap w)) w)).
Proof.
  intros (Hpat & Hval & flat & b0 & Hrep & Hb0) Hb Hv Hparse Hp.
  assert (b0 = b) as -> by congruence.
  destruct (replay_ply_played Hpiece b b' s mv flat Hv Hparse Hp) as [fl' Hply].
  split; [done|]. split.
  - cbn [turns set_turns]. apply Forall_app. split; [done|].
    by repeat constructor.
  - exists fl', b'. cbn [turns set_turns set_heap heap board]. split.
    + by rewrite replay_snoc, Hrep, Hply.
    + apply lookup_insert_eq.
Qed.

(** The same for a black move stored in the open slot of the last turn. *)
Lemma played_black (Hpiece : moved_piece_present) (w : world) (b b' : Board)
      (ts : list turn) (wh s : str) (mv : Move) :
  consistent w → heap w !! board w = Some b → turns w = ts ++ [(wh, None)] →
  validated s → parse_san b s = Ret mv → push b mv = (Ret tt, b') →
  consistent (set_turns (ts ++ [(wh, Some s)])
                (set_heap (<[board w := b']> (heap w)) w)).
Proof.
  intros (Hpat & Hval & flat & b0 & Hrep & Hb0) Hb Hts Hv Hparse Hp.
  assert (b0 = b) as -> by congruence.
  destruct (replay_ply_played Hpiece b b' s mv flat Hv Hparse Hp) as [fl' Hply].
  rewrite Hts in Hval, Hrep. apply Forall_app in Hval as [Hval Hlast].
  apply Forall_singleton in Hlast as [Hwh _].
  rewrite replay_snoc in Hrep.
  split; [done|]. split.
  - cbn [turns set_turns]. apply Forall_app. split; [done|].
    by repeat constructor.
  - exists fl', b'. cbn [turns set_turns set_heap heap board]. split.
    + rewrite replay_snoc.
      destruct (replay new_board ts []) as [[f1|] b1]; [|done].
      destruct (replay_opt b1 (Some wh) f1) as [[f2|] b2]; [|done].
      cbn [replay_opt] in Hrep. injection Hrep as -> ->. exact Hply.
    + apply lookup_insert_eq.
Qed.

Lemma last_move_snoc (ts : list turn) (wh : str) (bl : option str) :
  last_move (ts ++ [(wh, bl)])
  = Some (if truthy_opt bl then fmt_opt bl else wh).
Proof. unfold last_move. by rewrite last_snoc. Qed.

(** An iteration of the outer loop at a white prompt. *)
Lemma iteration_blancas_step (Hpush : push_atomic)
      (Hpiece : moved_piece_present) (turn : nat) (w : world) (cmd : str) :
  session_inv Blancas turn w →
  ∃ nx w',
    iteration_blancas turn cmd w = (Ret nx, w')
    ∧ consistent w' ∧ board w' = board w
    ∧ ((nx = Again Blancas turn ∧ turns w' = turns w
        ∧ heap w' !! board w' = heap w !! board w)
       ∨ (turns w' = turns w ++ [(cmd, None)]
          ∧ (nx = Again Negras turn ∨ (nx = Done ∧ mate_reached w')))).
Proof.
  intros [Hcons Hlen]. unfold iteration_blancas.
  destruct (bool_decide (lower cmd = py "arbol")).
  { destruct (generate_tree_prints w) as [lines Hg].
    eexists _, _. split.
    { rewrite (bind_ret_run _ _ _ _ _ Hg). reflexivity. }
    split; [by apply consistent_set_stdout|]. split; [done|]. by left. }
  destruct (bool_decide (upper cmd = py "RESULTADO")).
  { destruct (display_result_consistent w Hcons)
      as (w' & Hd & Hc' & Ht' & Hb' & Hh').
    eexists _, _. split.
    { rewrite (bind_ret_run _ _ _ _ _ Hd). reflexivity. }
    split; [done|]. split; [done|]. by left. }
  pose proof Hcons as (Hpat & Hval & flat & b & Hrep & Hb).
  destruct (attempt_run Hpush w cmd b Hpat Hb)
    as [(mv & b' & Hv & Hparse & Hp & Hatt)|Hatt].
  - set (w1 := set_heap (<[board w := b']> (heap w)) w) in *.
    set (w2 := set_turns (turns w1 ++ [(cmd, None)]) w1).
    assert (Hc2 : consistent w2) by (by apply (played_white Hpiece w b b' cmd mv)).
    assert (Hb2 : heap w2 !! board w2 = Some b') by apply lookup_insert_eq.
    destruct (display_progress_run w2 b' Hb2) as [lines Hdp].
    set (w3 := set_stdout (stdout w2 ++ lines) w2) in *.
    pose proof (mate_after_run w3 b' cmd Hb2) as Hmate.
    destruct (contains (ch "#") cmd || is_checkmate b') eqn:Hm.
    + eexists _, _. split.
      { rewrite (bind_ret_run _ _ _ _ _ Hatt). cbn beta iota.
        rewrite (bind_ret_run _ _ _ _ _ (add_turn_run cmd None w1)).
        fold w2. rewrite (bind_ret_run _ _ _ _ _ Hdp).
        rewrite (bind_ret_run _ _ _ _ _ Hmate). cbn beta iota.
        rewrite (bind_ret_run _ _ _ _ _ (print_run _ w3)). reflexivity. }
      split; [by repeat apply consistent_set_stdout|]. split; [done|].
      right. split; [done|]. right. split; [done|].
      exists cmd, b'. subst w3 w2. cbn [turns set_stdout set_turns heap board].
      split; [by rewrite last_move_snoc|]. split; [exact Hb2|].
      by apply orb_true_iff.
    + eexists _, _. split.
      { rewrite (bind_ret_run _ _ _ _ _ Hatt). cbn beta iota.
        rewrite (bind_ret_run _ _ _ _ _ (add_turn_run cmd None w1)).
        fold w2. rewrite (bind_ret_run _ _ _ _ _ Hdp).
        rewrite (bind_ret_run _ _ _ _ _ Hmate). cbn beta iota.
        reflexivity. }
      split; [by apply consistent_set_stdout|]. split; [done|].
      right. split; [done|]. by left.
  - eexists _, _. split.
    { rewrite (bind_ret_run _ _ _ _ _ Hatt). cbn beta iota.
      rewrite (bind_ret_run _ _ _ _ _ (print_run _ w)). reflexivity. }
    split; [by apply consistent_set_stdout|]. split; [done|]. by left.
Qed.

(** An iteration of the inner loop at a black prompt. *)
Lemma iteration_negras_step (Hpush : push_atomic)
      (Hpiece : moved_piece_present) (turn : nat) (w : world) (resp : str) :
  session_inv Negras turn w →
  ∃ nx w',
    iteration_negras turn resp w = (Ret nx, w')
    ∧ consistent w' ∧ board w' = board w
    ∧ ((nx = Again Negras turn ∧ turns w' = turns w
        ∧ heap w' !! board w' = heap w !! board w)
       ∨ (∃ ts wh black,
            turns w = ts ++ [(wh, None)] ∧ turns w' = ts ++ [(wh, black)]
            ∧ (nx = Again Blancas (S turn) ∨ (nx = Done ∧ mate_reached w')))).
Proof.
  intros [Hcons [Hlen (ts & wh & Hts)]]. unfold iteration_negras.
  destruct (bool_decide (lower resp = py "arbol")).
  { destruct (generate_tree_prints w) as [lines Hg].
    eexists _, _. split.
    { rewrite (bind_ret_run _ _ _ _ _ Hg). reflexivity. }
    split; [by apply consistent_set_stdout|]. split; [done|]. by left. }
  destruct (bool_decide (upper resp = py "RESULTADO")).
  { destruct (display_result_consistent w Hcons)
      as (w' & Hd & Hc' & Ht' & Hb' & Hh').
    eexists _, _. split.
    { rewrite (bind_ret_run _ _ _ _ _ Hd). reflexivity. }
    split; [done|]. split; [done|]. by left. }
  pose proof Hcons as (Hpat & Hval & flat & b & Hrep & Hb).
  destruct (truthy resp) eqn:Hresp; cbn [negb].
  - destruct (attempt_run Hpush w resp b Hpat Hb)
      as [(mv & b' & Hv & Hparse & Hp & Hatt)|Hatt].
    + set (w1 := set_heap (<[board w := b']> (heap w)) w) in *.
      set (w2 := set_turns (ts ++ [(wh, Some resp)]) w1).
      assert (Hc2 : consistent w2)
        by (by apply (played_black Hpiece w b b' ts wh resp mv)).
      assert (Hb2 : heap w2 !! board w2 = Some b') by apply lookup_insert_eq.
      assert (Hset : set_last_black (Some resp) w1 = (Ret tt, w2))
        by (by apply (set_last_black_last w1 ts wh None)).
      destruct (display_progress_run w2 b' Hb2) as [lines Hdp].
      set (w3 := set_stdout (stdout w2 ++ lines) w2) in *.
      pose proof (mate_after_run w3 b' resp Hb2) as Hmate.
      destruct (contains (ch "#") resp || is_checkmate b') eqn:Hm.
      * eexists _, _. split.
        { rewrite (bind_ret_run _ _ _ _ _ Hatt). cbn beta iota.
          rewrite (bind_ret_run _ _ _ _ _ Hset).
          rewrite (bind_ret_run _ _ _ _ _ Hdp).
          unfold after_negras. cbn [truthy_opt fmt_opt]. rewrite Hresp.
          rewrite (bind_ret_run _ _ _ _ _ Hmate). cbn beta iota.
          rewrite (bind_ret_run _ _ _ _ _ (print_run _ w3)). reflexivity. }
        split; [by repeat apply consistent_set_stdout|]. split; [done|].
        right. exists ts, wh, (Some resp). split; [done|]. split; [done|].
        right. split; [done|].
        exists resp, b'. subst w3 w2. cbn [turns set_stdout set_turns heap board].
        split; [by rewrite last_move_snoc; cbn [truthy_opt fmt_opt]; rewrite Hresp|].
        split; [exact Hb2|]. by apply orb_true_iff.
      * eexists _, _. split.
        { rewrite (bind_ret_run _ _ _ _ _ Hatt). cbn beta iota.
          rewrite (bind_ret_run _ _ _ _ _ Hset).
          rewrite (bind_ret_run _ _ _ _ _ Hdp).
          unfold after_negras. cbn [truthy_opt fmt_opt]. rewrite Hresp.
          rewrite (bind_ret_run _ _ _ _ _ Hmate). cbn beta iota.
          reflexivity. }
        split; [by apply consistent_set_stdout|]. split; [done|].
        right. exists ts, wh, (Some resp). split; [done|]. split; [done|].
        by left.
    + eexists _, _. split.
      { rewrite (bind_ret_run _ _ _ _ _ Hatt). cbn beta iota.
        rewrite (bind_ret_run _ _ _ _ _ (print_run _ w)). reflexivity. }
      split; [by apply consistent_set_stdout|]. split; [done|]. by left.
  - assert (Hset : set_last_black None w = (Ret tt, set_turns (ts ++ [(wh, None)]) w))
      by (by apply (set_last_black_last w ts wh None)).
    set (w2 := set_turns (ts ++ [(wh, None)]) w) in *.
    assert (Hw2 : w2 = w).
    { subst w2. rewrite <- Hts. by destruct w. }
    assert (Hb2 : heap w2 !! board w2 = Some b) by (by rewrite Hw2).
    destruct (display_progress_run w2 b Hb2) as [lines Hdp].
    eexists _, _. split.
    { rewrite (bind_ret_run _ _ _ _ _ Hset).
      rewrite (bind_ret_run _ _ _ _ _ Hdp).
      unfold after_negras. cbn [truthy_opt]. reflexivity. }
    split; [apply consistent_set_stdout; by rewrite Hw2|]. split; [done|].
    right. exists ts, wh, None. split; [done|]. split; [done|]. by left.
Qed.

(** Every iteration leads from a prompt state to a prompt state, or out
    of the loops with the mate condition; it never raises. *)
Lemma iteration_inv (Hpush : push_atomic) (Hpiece : moved_piece_present)
      (ph : phase) (turn : nat) (w : world) (line : str) :
  session_inv ph turn w →
  ∃ nx w',
    iteration ph turn line w = (Ret nx, w')
    ∧ consistent w'
    ∧ match nx with
      | Again ph' turn' => session_inv ph' turn' w'
      | Done => mate_reached w'
      end.
Proof.
  intros Hinv. destruct ph; cbn [iteration].
  - destruct (iteration_blancas_step Hpush Hpiece turn w line Hinv)
      as (nx & w' & Hrun & Hc & _ & Hcase).
    exists nx, w'. split; [done|]. split; [done|].
    destruct Hinv as [_ Hlen].
    destruct Hcase as [(-> & Ht & _)|(Ht & [->|[-> Hm]])].
    + split; [done|]. by rewrite Ht.
    + split; [done|]. split.
      * rewrite Ht, length_app. simpl. lia.
      * by exists (turns w), line.
    + done.
  - destruct (iteration_negras_step Hpush Hpiece turn w line Hinv)
      as (nx & w' & Hrun & Hc & _ & Hcase).
    exists nx, w'. split; [done|]. split; [done|].
    destruct Hinv as [_ [Hlen (ts0 & wh0 & Hts0)]].
    destruct Hcase
      as [(-> & Ht & _)|(ts & wh & black & Hts & Ht & [->|[-> Hm]])].
    + split; [done|]. rewrite Ht. split; [done|]. by exists ts0, wh0.
    + split; [done|]. cbn beta iota.
      rewrite Ht, length_app. rewrite Hts, length_app in Hlen.
      simpl in *. lia.
    + done.
Qed.

Lemma main_loop_inv (Hpush : push_atomic) (Hpiece : moved_piece_present)
      (inputs : list str) :
  ∀ (ph : phase) (turn : nat) (pr : list (nat * str)) (w : world),
    session_inv ph turn w →
    (main_loop inputs ph turn pr w).1 ≠ Crashed
    ∧ consistent (at_world (main_loop inputs ph turn pr w).2)
    ∧ ((main_loop inputs ph turn pr w).1 = EndOfInput →
       session_inv (at_phase (main_loop inputs ph turn pr w).2)
                   (at_turn (main_loop inputs ph turn pr w).2)
                   (at_world (main_loop inputs ph turn pr w).2))
    ∧ ((main_loop inputs ph turn pr w).1 = Finished →
       mate_reached (at_world (main_loop inputs ph turn pr w).2)).
Proof.
  induction inputs as [|line rest IH]; intros ph turn pr w Hinv.
  - cbn [main_loop fst snd at_world at_phase at_turn].
    split; [done|]. split; [by destruct Hinv|]. split; [done|]. discriminate.
  - cbn [main_loop].
    destruct (iteration_inv Hpush Hpiece ph turn w (strip line) Hinv)
      as (nx & w' & Hrun & Hc & Hnx).
    rewrite Hrun. destruct nx as [ph' turn'|].
    + by apply IH.
    + cbn [fst snd at_world]. split; [done|]. split; [done|].
      split; [discriminate|done].
Qed.

(** The state in which [main] enters its loop. *)
Lemma main_start (h : gmap loc Board) :
  ∃ lines,
    (print (py "Validación interactiva de una partida en SAN hasta jaque mate");;
     print ([10] ++ py "Tablero inicial:");;
     print_board_with_labels) (__init__ h)
    = (Ret tt, set_stdout lines (__init__ h)).
Proof.
  rewrite (bind_ret_run _ _ _ _ _ (print_run _ _)).
  rewrite (bind_ret_run _ _ _ _ _ (print_run _ _)).
  rewrite (print_board_with_labels_run _ new_board)
    by apply lookup_insert_eq.
  rewrite !set_stdout_twice. eauto.
Qed.

Lemma init_inv (h : gmap loc Board) (lines : list str) :
  session_inv Blancas 1 (set_stdout lines (__init__ h)).
Proof.
  split; [|done]. apply consistent_set_stdout.
  split; [done|]. split; [constructor|].
  exists [], new_board. split; [done|]. apply lookup_insert_eq.
Qed.

Lemma main_inv (Hpush : push_atomic) (Hpiece : moved_piece_present)
      (h : gmap loc Board) (inputs : list str) :
  (main h inputs).1 ≠ Crashed
  ∧ consistent (at_world (main h inputs).2)
  ∧ ((main h inputs).1 = EndOfInput →
     session_inv (at_phase (main h inputs).2) (at_turn (main h inputs).2)
                 (at_world (main h inputs).2))
  ∧ ((main h inputs).1 = Finished →
     mate_reached (at_world (main h inputs).2)).
Proof.
  unfold main. destruct (main_start h) as [lines ->].
  apply (main_loop_inv Hpush Hpiece), init_inv.
Qed.

End SessionInvariant.

(** ** What the recogniser accepts *)

Section AcceptedTexts.
Context `{E : ChessEngine}.

Lemma den_length (r : regex) :
  ∀ s, den r s → (min_len r <= length s <= max_len r)%nat.
Proof.
  induction r as [c|items|r1 IH1 r2 IH2|r1 IH1 r2 IH2|r1 IH1| |];
    simpl; intros s Hs.
  - unfold Grammar.tok in Hs. subst s. simpl. lia.
  - destruct Hs as (c & -> & _). simpl. lia.
  - destruct Hs as (a & b & -> & Ha & Hb).
    apply IH1 in Ha. apply IH2 in Hb. rewrite length_app. lia.
  - destruct Hs as [Hs|Hs]; [apply IH1 in Hs | apply IH2 in Hs]; lia.
  - destruct Hs as [->|Hs]; [simpl; lia | apply IH1 in Hs; lia].
  - unfold Grammar.tok in Hs. subst s. simpl. lia.
  - unfold Grammar.tok in Hs. subst s. simpl. lia.
Qed.

Lemma item_within_in (a : list item) (i : item) (c : char) :
  item_within a i = true → in_item c i = true → in_set a c = true.
Proof.
  destruct i as [d|lo hi]; simpl.
  - intros Ha Hc. apply N.eqb_eq in Hc. by subst.
  - intros Ha Hc. apply andb_true_iff in Hc as [Hlo Hhi].
    apply N.leb_le in Hlo, Hhi.
    apply existsb_exists in Ha as (j & Hj & Hcov).
    destruct j as [|lo' hi']; [discriminate|].
    apply andb_true_iff in Hcov as [Hlo' Hhi']. apply N.leb_le in Hlo', Hhi'.
    unfold in_set. apply existsb_exists. exists (Range lo' hi').
    split; [done|]. simpl. apply andb_true_iff.
    split; apply N.leb_le; lia.
Qed.

Lemma den_within (a : list item) (r : regex) :
  within a r = true → ∀ s, den r s → Forall (fun c => in_set a c = true) s.
Proof.
  induction r as [c|items|r1 IH1 r2 IH2|r1 IH1 r2 IH2|r1 IH1| |];
    simpl; intros Hw s Hs.
  - unfold Grammar.tok in Hs. subst s. by repeat constructor.
  - destruct Hs as (c & -> & Hc). repeat constructor.
    unfold in_set in Hc. apply existsb_exists in Hc as (i & Hi & Hci).
    apply (item_within_in a i c); [|done].
    rewrite forallb_forall in Hw. by apply Hw.
  - apply andb_true_iff in Hw as [Hw1 Hw2].
    destruct Hs as (x & y & -> & Hx & Hy). apply Forall_app. split; eauto.
  - apply andb_true_iff in Hw as [Hw1 Hw2]. destruct Hs; eauto.
  - destruct Hs as [->|Hs]; [constructor | eauto].
  - unfold Grammar.tok in Hs. subst s. constructor.
  - unfold Grammar.tok in Hs. subst s. constructor.
Qed.

Lemma den_free_of (c : char) (r : regex) :
  free_of c r = true → ∀ s, den r s → c ∉ s.
Proof.
  induction r as [d|items|r1 IH1 r2 IH2|r1 IH1 r2 IH2|r1 IH1| |];
    simpl; intros Hf s Hs.
  - unfold Grammar.tok in Hs. subst s. intros Hin.
    apply list_elem_of_singleton in Hin. subst.
    by rewrite N.eqb_refl in Hf.
  - destruct Hs as (d & -> & Hd). intros Hin.
    apply list_elem_of_singleton in Hin. subst. by rewrite Hd in Hf.
  - apply andb_true_iff in Hf as [Hf1 Hf2].
    destruct Hs as (x & y & -> & Hx & Hy). intros Hin.
    apply elem_of_app in Hin as [Hin|Hin]; [by apply (IH1 Hf1 x) | by apply (IH2 Hf2 y)].
  - apply andb_true_iff in Hf as [Hf1 Hf2]. destruct Hs; eauto.
  - destruct Hs as [->|Hs]; [apply not_elem_of_nil | eauto].
  - unfold Grammar.tok in Hs. subst s. apply not_elem_of_nil.
  - unfold Grammar.tok in Hs. subst s. apply not_elem_of_nil.
Qed.

Lemma den_only_last (c : char) (r : regex) :
  only_last c r = true →
  ∀ s, den r s → ∀ a b, s = a ++ c :: b → b = [].
Proof.
  induction r as [d|items|r1 IH1 r2 IH2|r1 IH1 r2 IH2|r1 IH1| |];
    simpl; intros Hl s Hs a b Hsplit.
  - unfold Grammar.tok in Hs. subst s.
    destruct a as [|a0 a]; simpl in Hsplit;
      [by injection Hsplit | injection Hsplit as _ Ha; by destruct a].
  - destruct Hs as (d & -> & Hd).
    destruct a as [|a0 a]; simpl in Hsplit;
      [by injection Hsplit | injection Hsplit as _ Ha; by destruct a].
  - apply andb_true_iff in Hl as [Hf Hl].
    destruct Hs as (x & y & -> & Hx & Hy).
    pose proof (den_free_of c r1 Hf x Hx) as Hfree.
    apply app_eq_inv in Hsplit as [(k & -> & Hk)|(k & -> & ->)].
    + destruct k as [|k0 k]; simpl in Hk.
      * subst y. by apply (IH2 Hl _ Hy []).
      * injection Hk as <- _. exfalso. apply Hfree. set_solver.
    + by apply (IH2 Hl _ Hy k).
  - apply andb_true_iff in Hl as [Hl1 Hl2]. destruct Hs; eauto.
  - destruct Hs as [->|Hs]; [by destruct a | eauto].
  - unfold Grammar.tok in Hs. subst s. by destruct a.
  - unfold Grammar.tok in Hs. subst s. by destruct a.
Qed.

(** An accepted text is a word of the alternation, or such a word and
    one newline. *)
Lemma accepted_body (h : gmap loc Board) (s : str) :
  (validate_move s (__init__ h)).1 = Ret true →
  ∃ body, (s = body ∨ s = body ++ [10]) ∧ den jugada_body body.
Proof.
  intros Hv. apply validate_move_iff in Hv as [Hm|(s' & -> & Hm)].
  - exists s. split; [by left|]. by apply den_jugada_body.
  - exists s'. split; [by right|]. by apply den_jugada_body.
Qed.

(** X1: on a newly constructed parser [validate_move] returns true
    exactly on the words of the SAN grammar and on such a word followed
    by one newline; on every other string it returns false. *)
Theorem validate_move_accepts_exactly (h : gmap loc Board) (s : str) :
  ((validate_move s (__init__ h)).1 = Ret true
   ↔ Grammar.move s ∨ ∃ s', s = s' ++ [10] ∧ Grammar.move s')
  ∧ ((validate_move s (__init__ h)).1 = Ret false
     ↔ ¬ (Grammar.move s ∨ ∃ s', s = s' ++ [10] ∧ Grammar.move s')).
Proof.
  pose proof (validate_move_iff h s) as Hiff. split; [exact Hiff|].
  rewrite validate_move_run in *. cbn [fst] in *.
  destruct (bool_of_match _); split.
  - discriminate.
  - intros Hn. exfalso. apply Hn. by apply Hiff.
  - intros _ Hm. apply Hiff in Hm. discriminate.
  - done.
Qed.

(** X2: a text [validate_move] accepts is a body of 2 to 9 characters,
    possibly followed by the one newline [$] lets through; so it has
    between 2 and 10 characters in all. *)
Theorem validate_move_length (h : gmap loc Board) (s : str) :
  (validate_move s (__init__ h)).1 = Ret true →
  ∃ body, (s = body ∨ s = body ++ [10])
          ∧ (2 <= length body <= 9)%nat
          ∧ (2 <= length s <= 10)%nat.
Proof.
  intros Hv. destruct (accepted_body h s Hv) as (body & Hs & Hb).
  apply den_length in Hb.
  change (min_len jugada_body) with 2%nat in Hb.
  change (max_len jugada_body) with 9%nat in Hb.
  exists body. split; [done|]. split; [done|].
  destruct Hs as [->| ->]; [lia|]. rewrite length_app. simpl. lia.
Qed.

(** X3: a text [validate_move] accepts consists of characters of the SAN
    alphabet (a-h, 1-8, K Q R B N, O, -, x, =, +, #) only, but for one
    newline it may end with; so it holds no blank and no character
    outside ASCII. *)
Theorem validate_move_alphabet (h : gmap loc Board) (s : str) :
  (validate_move s (__init__ h)).1 = Ret true →
  ∃ body, (s = body ∨ s = body ++ [10])
          ∧ Forall (fun c => in_set san_alphabet c = true) body.
Proof.
  intros Hv. destruct (accepted_body h s Hv) as (body & Hs & Hb).
  exists body. split; [done|].
  by apply (den_within san_alphabet jugada_body).
Qed.

(** X4: in a text [validate_move] accepts, the mate mark # can only be
    the last character (before the newline, if there is one) and occurs
    nowhere else; so the test [# in cmd] of [main] fires on accepted
    moves that end with # and on no others. *)
Theorem validate_move_mate_mark (h : gmap loc Board) (s : str) :
  (validate_move s (__init__ h)).1 = Ret true →
  ch "#" ∈ s →
  ∃ front, (s = front ++ [ch "#"] ∨ s = front ++ [ch "#"; 10])
           ∧ ch "#" ∉ front.
Proof.
  intros Hv Hin. destruct (accepted_body h s Hv) as (body & Hs & Hb).
  pose proof (den_only_last (ch "#") jugada_body eq_refl body Hb) as Hlast.
  assert (Hbody : ch "#" ∈ body).
  { destruct Hs as [->| ->]; [done|].
    apply elem_of_app in Hin as [Hin|Hin]; [done|].
    apply list_elem_of_singleton in Hin. discriminate. }
  apply list_elem_of_split in Hbody as (front & back & Hsplit).
  pose proof (Hlast front back Hsplit) as ->.
  exists front. split.
  - destruct Hs as [->| ->]; [by left|].
    right. rewrite Hsplit. by rewrite <- app_assoc.
  - intros Hfront.
    apply list_elem_of_split in Hfront as (f1 & f2 & ->).
    rewrite <- app_assoc in Hsplit. cbn [app] in Hsplit.
    apply Hlast in Hsplit. by destruct f2.
Qed.

End AcceptedTexts.

(** ** More on the ledger, the renderer, the flattener and the board view *)

Section MoreLedger.
Context `{E : ChessEngine}.

(** X5: appending a turn with white only and then setting its black
    slot gives the same state as appending the turn with both moves at
    once. *)
Theorem add_turn_then_set_last_black (w : world) (white : str)
        (black : option str) :
  (add_turn white None;; set_last_black black) w = add_turn white black w.
Proof.
  rewrite (bind_ret_run _ _ _ _ _ (add_turn_run white None w)).
  rewrite (set_last_black_last _ (turns w) white None black) by done.
  by rewrite add_turn_run.
Qed.

End MoreLedger.

Section MoreRenderer.
Context `{E : ChessEngine}.

(** X7: below the first turn [_build_tree] is the plain walk over the
    turns from [depth] on: the variation rule fires at depth 0 only. *)
Theorem _build_tree_below_top (ts : list turn) (depth : nat) (prefix : str)
        (is_last : bool) :
  (1 <= depth)%nat →
  _build_tree ts depth prefix is_last
  = render_turns (drop depth ts) prefix is_last.
Proof.
  intros Hd. destruct (decide (depth <= length ts)%nat) as [Hle|Hgt].
  - destruct ts as [|t0 ts0].
    { simpl in Hle. lia. }
    assert (Hne : take depth (t0 :: ts0) ≠ []) by (destruct depth; [lia | done]).
    pose proof (_build_tree_deep (drop depth (t0 :: ts0))
                  (take depth (t0 :: ts0)) prefix is_last Hne) as Hdeep.
    by rewrite take_drop, (length_take_le _ _ Hle) in Hdeep.
  - rewrite _build_tree_end by lia. by rewrite drop_ge by lia.
Qed.

(** Every line of the walk is the prefix, some indentation and the move;
    the lines follow the moves in play order. *)
Lemma render_turns_moves (ts : list turn) :
  ∀ (prefix : str) (is_last : bool),
    Forall2 (fun line m => ∃ indent, line = prefix ++ indent ++ m)
            (render_turns ts prefix is_last) (plies ts).
Proof.
  induction ts as [|[wh bl] rest IH]; intros prefix is_last; [constructor|].
  cbn [render_turns plies flat_map fst snd].
  constructor; [eauto|].
  set (step := if is_last then py "    " else py "│   ").
  destruct (truthy_opt bl).
  - cbn [app]. constructor.
    + exists (step ++ py "└── "). by rewrite <- !app_assoc.
    + eapply Forall2_impl; [apply IH|].
      intros line m [indent ->].
      exists (step ++ py "    " ++ indent). by rewrite <- !app_assoc.
  - cbn [app]. eapply Forall2_impl; [apply IH|].
    intros line m [indent ->].
    exists (py "│   " ++ indent). by rewrite <- !app_assoc.
Qed.

Lemma render_turns_suffixes (ts : list turn) (prefix : str) (is_last : bool) :
  Forall2 (fun line m => m `suffix_of` line)
          (render_turns ts prefix is_last) (plies ts).
Proof.
  eapply Forall2_impl; [apply render_turns_moves|].
  intros line m [indent ->]. exists (prefix ++ indent). by rewrite app_assoc.
Qed.

(** X8: after the root label, [generate_tree] prints one line per move,
    each ending with the move's text, in play order: every white move
    and every black move that is present, and then, for a ledger of two
    or more turns, the moves from the second turn on once more. *)
Theorem generate_tree_lists_moves (w : world) :
  ∃ lines,
    stdout (generate_tree w).2 = stdout w ++ py "Partida" :: lines
    ∧ Forall2 (fun line m => m `suffix_of` line) lines
        (plies (turns w)
         ++ match turns w with
            | _ :: (_ :: _) as rest => plies rest
            | _ => []
            end).
Proof.
  rewrite generate_tree_run. cbn [snd stdout set_stdout].
  destruct (turns w) as [|t0 rest].
  - exists []. split; [done|]. constructor.
  - rewrite _build_tree_top. eexists. split; [reflexivity|].
    apply Forall2_app; [apply render_turns_suffixes|].
    destruct rest as [|t1 rest]; [constructor|].
    apply render_turns_suffixes.
Qed.

End MoreRenderer.

Section MoreFlattener.
Context `{E : ChessEngine}.

Lemma replay_opt_length (b b' : Board) (san : option str)
      (fl fl' : list str) :
  replay_opt b san fl = (Ret fl', b') →
  length fl' = (length fl + (if truthy_opt san then 1 else 0))%nat.
Proof.
  unfold replay_opt, replay_ply. destruct san as [s|]; cbn [truthy_opt].
  - destruct (truthy s).
    + destruct (parse_san b s) as [mv|]; [|discriminate].
      destruct (piece_at b (from_square mv)); [|discriminate].
      destruct (push b mv) as [[[]|] b1]; [|discriminate].
      intros [= <- <-]. rewrite length_app. simpl. lia.
    + intros [= <- <-]. lia.
  - intros [= <- <-]. lia.
Qed.

Lemma replay_length (ts : list turn) :
  ∀ (b b' : Board) (fl fl' : list str),
    replay b ts fl = (Ret fl', b') →
    length fl' = (length fl + length (replayed_moves ts))%nat.
Proof.
  induction ts as [|[wh bl] rest IH]; intros b b' fl fl'.
  - intros [= <- <-]. simpl. lia.
  - cbn [replay replayed_moves flat_map fst snd].
    destruct (replay_opt b (Some wh) fl) as [[f1|] b1] eqn:H1; [|discriminate].
    destruct (replay_opt b1 bl f1) as [[f2|] b2] eqn:H2; [|discriminate].
    intros Hrest. apply IH in Hrest.
    apply replay_opt_length in H1, H2. cbn [truthy_opt] in H1.
    rewrite !length_app. fold (replayed_moves rest).
    destruct (truthy wh), (truthy_opt bl); simpl in *; lia.
Qed.

(** X10: when [display_result] completes, it has printed exactly one
    line, with one numbered entry for each move of the ledger that is
    present and not empty. *)
Theorem display_result_entries (w : world) :
  (display_result w).1 = Ret tt →
  ∃ flat,
    stdout (display_result w).2 = stdout w ++ [result_line flat]
    ∧ length flat = length (replayed_moves (turns w)).
Proof.
  pose proof (display_result_run w) as Hrun. cbv zeta in Hrun.
  rewrite Hrun. cbn [fst snd stdout].
  destruct (replay new_board (turns w) []) as [[flat|] bf] eqn:Hrep;
    cbn [fst snd]; [|discriminate].
  intros _. exists flat. split; [done|].
  by apply replay_length in Hrep.
Qed.

End MoreFlattener.

Section BoardView.
Context `{E : ChessEngine} `{V : !ChessView E} `{T : PyText}.

Lemma split_on_length (sep : char) (s : str) :
  length (split_on sep s) = S (length (filter (fun c => c = sep) s)).
Proof.
  unfold str in *. induction s as [|c s IH]; [done|].
  cbn [split_on]. rewrite filter_cons.
  destruct (N.eqb_spec c sep) as [->|Hne].
  - rewrite decide_True by done. simpl. lia.
  - rewrite decide_False by done.
    destruct (split_on sep s) as [|r rs]; simpl in *; lia.
Qed.

(** X11: [print_board_with_labels] prints the two header lines, one
    line per row of the board text (one more than the text has
    newlines), and the footer, and changes nothing else; when the
    session board is missing it raises before printing anything. *)
Theorem print_board_with_labels_rows (w : world) :
  match heap w !! board w with
  | Some b =>
    ∃ lines,
      print_board_with_labels w = (Ret tt, set_stdout (stdout w ++ lines) w)
      ∧ length lines
        = (4 + length (filter (fun c => c = 10%N) (board_str b)))%nat
  | None => print_board_with_labels w = (Raise, w)
  end.
Proof.
  destruct (heap w !! board w) as [b|] eqn:Hb.
  - exists (board_lines b). split; [by apply print_board_with_labels_run|].
    unfold board_lines. rewrite !length_app, length_imap, split_on_length.
    simpl. unfold str, char in *. lia.
  - by apply print_board_with_labels_dangling.
Qed.

End BoardView.

(** ** The session *)

Section SessionProperties.
Context `{E : ChessEngine} `{V : !ChessView E} `{T : PyText}.

(** X13: with an engine whose failing [push] leaves the board alone and
    whose parsed moves start on an occupied square, whenever [main] ends,
    every move in the ledger is one [validate_move] accepted, the replay
    of the ledger from the initial position completes on exactly the
    board the session holds, and so [display_result] on the final state
    completes. *)
Theorem main_ledger_agrees_with_board (Hpush : push_atomic)
        (Hpiece : moved_piece_present) (h : gmap loc Board)
        (inputs : list str) :
  let w := at_world (main h inputs).2 in
  Forall turn_validated (turns w)
  ∧ (∃ flat b, replay new_board (turns w) [] = (Ret flat, b)
               ∧ heap w !! board w = Some b)
  ∧ (display_result w).1 = Ret tt.
Proof.
  cbv zeta. destruct (main_inv Hpush Hpiece h inputs) as (_ & Hc & _).
  pose proof Hc as (_ & Hval & Hrep). split; [done|]. split; [done|].
  destruct (display_result_consistent _ Hc) as (w' & -> & _). done.
Qed.

(** X14: under the same conditions, when [main] ends by [break], the
    ledger is not empty and its last move carries the mate mark #, or
    the session board is checkmate. *)
Theorem main_finished_on_mate (Hpush : push_atomic)
        (Hpiece : moved_piece_present) (h : gmap loc Board)
        (inputs : list str) :
  (main h inputs).1 = Finished →
  mate_reached (at_world (main h inputs).2).
Proof.
  intros Hf. by destruct (main_inv Hpush Hpiece h inputs) as (_ & _ & _ & Hm);
    apply Hm.
Qed.

(** X15: under the same conditions, at the prompt where the lines run
    out the turn counter agrees with the ledger: at a white prompt the
    ledger has [turn - 1] turns, at a black prompt it has [turn] turns
    and the last of them has no black move yet. *)
Theorem main_prompt_state (Hpush : push_atomic)
        (Hpiece : moved_piece_present) (h : gmap loc Board)
        (inputs : list str) :
  (main h inputs).1 = EndOfInput →
  let w := at_world (main h inputs).2 in
  match at_phase (main h inputs).2 with
  | Blancas => S (length (turns w)) = at_turn (main h inputs).2
  | Negras => length (turns w) = at_turn (main h inputs).2
              ∧ ∃ ts wh, turns w = ts ++ [(wh, None)]
  end.
Proof.
  intros He. cbv zeta.
  destruct (main_inv Hpush Hpiece h inputs) as (_ & _ & Hinv & _).
  by destruct (Hinv He) as [_ Hph].
Qed.


(** X17: a line that is no command and that [validate_move] rejects
    (at a black prompt: a line that is not empty) only prints one
    message: ledger, boards, phase and turn counter stay as they are,
    and the engine is not asked. *)
Theorem rejected_line_only_prints (ph : phase) (turn : nat) (w : world)
        (line : str) :
  lower line ≠ py "arbol" →
  upper line ≠ py "RESULTADO" →
  (ph = Negras → truthy line = true) →
  (validate_move line w).1 = Ret false →
  ∃ msg,
    iteration ph turn line w
    = (Ret (Again ph turn), set_stdout (stdout w ++ [msg]) w).
Proof.
  intros Harbol Hres Hne Hv.
  assert (Hrun : validate_move line w = (Ret false, w)).
  { rewrite validate_move_run in *. simpl in Hv. by rewrite Hv. }
  assert (Hatt : and_then (validate_move line) (play_move line) w
                 = (Ret false, w)).
  { unfold and_then. by rewrite (bind_ret_run _ _ _ _ _ Hrun). }
  destruct ph; cbn [iteration].
  - unfold iteration_blancas.
    rewrite !bool_decide_eq_false_2 by done.
    rewrite (bind_ret_run _ _ _ _ _ Hatt). cbn beta iota.
    rewrite (bind_ret_run _ _ _ _ _ (print_run _ w)). eauto.
  - unfold iteration_negras.
    rewrite !bool_decide_eq_false_2 by done.
    rewrite (Hne eq_refl). cbn [negb].
    rewrite (bind_ret_run _ _ _ _ _ Hatt). cbn beta iota.
    rewrite (bind_ret_run _ _ _ _ _ (print_run _ w)). eauto.
Qed.

End SessionProperties.

(** ** The ledger in a session: stored moves stay *)

Section StoredMoves.
Context `{E : ChessEngine} `{V : !ChessView E} `{T : PyText}.










(** The state in which [main] runs out of lines is the state in which
    it reads the next line when there is one: a longer input continues
    from there, with the prompt written once. *)
Lemma main_loop_continues (l1 l2 : list str) :
  ∀ (ph : phase) (n : nat) (pr : list (nat * str)) (w : world),
    main_loop (l1 ++ l2) ph n pr w
    = match main_loop l1 ph n pr w with
      | (EndOfInput, st) =>
          main_loop l2 (at_phase st) (at_turn st) (removelast (prompts st))
                    (at_world st)
      | r => r
      end.
Proof.
  induction l1 as [|line rest IH]; intros ph n pr w.
  - cbn [app main_loop at_phase at_turn at_world prompts].
    by rewrite removelast_last.
  - cbn [app main_loop].
    destruct (iteration ph n (strip line) w) as [[[ph' n'|]|] w']; [|done|done].
    apply IH.
Qed.


End StoredMoves.

(** ** The added properties run on the stub engine *)

Section MoreRuns.
Import StubEngine StubHost.
#[local] Existing Instance engine.
#[local] Existing Instance view.
#[local] Existing Instance text.

Lemma stub_moved_piece_present : moved_piece_present.
Proof. intros b s mv _ _. by exists tt. Qed.

(** A session of three lines that ends by the mate mark. *)
Example main_scholars_run :
  (main ∅ [py "e4"; py "e5"; py "Qh5#"]).1 = Finished
  ∧ turns (at_world (main ∅ [py "e4"; py "e5"; py "Qh5#"]).2)
    = [(py "e4", Some (py "e5")); (py "Qh5#", None)].
Proof. vm_compute. done. Qed.

Lemma validate_move_length_witness :
  (validate_move (py "Qxf7#") (__init__ ∅)).1 = Ret true
  ∧ ∃ body, (py "Qxf7#" = body ∨ py "Qxf7#" = body ++ [10])
            ∧ (2 <= length body <= 9)%nat
            ∧ (2 <= length (py "Qxf7#") <= 10)%nat.
Proof.
  assert (H : (validate_move (py "Qxf7#") (__init__ ∅)).1 = Ret true)
    by (vm_compute; reflexivity).
  split; [exact H|]. exact (validate_move_length ∅ (py "Qxf7#") H).
Defined.

Lemma validate_move_alphabet_witness :
  (validate_move (py "Qxf7#") (__init__ ∅)).1 = Ret true
  ∧ ∃ body, (py "Qxf7#" = body ∨ py "Qxf7#" = body ++ [10])
            ∧ Forall (fun c => in_set san_alphabet c = true) body.
Proof.
  assert (H : (validate_move (py "Qxf7#") (__init__ ∅)).1 = Ret true)
    by (vm_compute; reflexivity).
  split; [exact H|]. exact (validate_move_alphabet ∅ (py "Qxf7#") H).
Defined.

Lemma validate_move_mate_mark_witness :
  (validate_move (py "Qxf7#") (__init__ ∅)).1 = Ret true
  ∧ ch "#" ∈ py "Qxf7#"
  ∧ ∃ front, (py "Qxf7#" = front ++ [ch "#"]
              ∨ py "Qxf7#" = front ++ [ch "#"; 10])
             ∧ ch "#" ∉ front.
Proof.
  assert (H : (validate_move (py "Qxf7#") (__init__ ∅)).1 = Ret true)
    by (vm_compute; reflexivity).
  assert (Hin : ch "#" ∈ py "Qxf7#") by (vm_compute; set_solver).
  split; [exact H|]. split; [exact Hin|].
  exact (validate_move_mate_mark ∅ (py "Qxf7#") H Hin).
Defined.

Lemma _build_tree_below_top_witness :
  (1 <= 1)%nat
  ∧ _build_tree [(py "e4", Some (py "e5")); (py "Nf3", None)] 1 [] true
    = render_turns (drop 1 [(py "e4", Some (py "e5")); (py "Nf3", None)])
        [] true.
Proof.
  split; [lia|]. apply _build_tree_below_top. lia.
Defined.

Lemma display_result_entries_witness :
  let w := set_turns [(py "e4", Some (py "e5"))] (__init__ ∅) in
  (display_result w).1 = Ret tt
  ∧ ∃ flat,
      stdout (display_result w).2 = stdout w ++ [result_line flat]
      ∧ length flat = length (replayed_moves (turns w)).
Proof.
  cbv zeta.
  assert (H : (display_result
                 (set_turns [(py "e4", Some (py "e5"))] (__init__ ∅))).1
              = Ret tt) by (vm_compute; reflexivity).
  split; [exact H|]. exact (display_result_entries _ H).
Defined.

Lemma main_ledger_agrees_with_board_witness :
  let w := at_world (main ∅ [py "e4"; py "e5"; py "Qh5#"]).2 in
  push_atomic ∧ moved_piece_present
  ∧ Forall turn_validated (turns w)
  ∧ (∃ flat b, replay new_board (turns w) [] = (Ret flat, b)
               ∧ heap w !! board w = Some b)
  ∧ (display_result w).1 = Ret tt.
Proof.
  cbv zeta.
  split; [exact stub_push_atomic|]. split; [exact stub_moved_piece_present|].
  exact (main_ledger_agrees_with_board stub_push_atomic
           stub_moved_piece_present ∅ [py "e4"; py "e5"; py "Qh5#"]).
Defined.

Lemma main_finished_on_mate_witness :
  push_atomic ∧ moved_piece_present
  ∧ (main ∅ [py "e4"; py "e5"; py "Qh5#"]).1 = Finished
  ∧ mate_reached (at_world (main ∅ [py "e4"; py "e5"; py "Qh5#"]).2).
Proof.
  assert (H : (main ∅ [py "e4"; py "e5"; py "Qh5#"]).1 = Finished)
    by (vm_compute; reflexivity).
  split; [exact stub_push_atomic|]. split; [exact stub_moved_piece_present|].
  split; [exact H|].
  exact (main_finished_on_mate stub_push_atomic stub_moved_piece_present ∅
           [py "e4"; py "e5"; py "Qh5#"] H).
Defined.

Lemma main_prompt_state_witness :
  push_atomic ∧ moved_piece_present
  ∧ (main ∅ [py "e4"]).1 = EndOfInput
  ∧ match at_phase (main ∅ [py "e4"]).2 with
    | Blancas => S (length (turns (at_world (main ∅ [py "e4"]).2)))
                 = at_turn (main ∅ [py "e4"]).2
    | Negras => length (turns (at_world (main ∅ [py "e4"]).2))
                = at_turn (main ∅ [py "e4"]).2
                ∧ ∃ ts wh, turns (at_world (main ∅ [py "e4"]).2)
                           = ts ++ [(wh, None)]
    end.
Proof.
  assert (H : (main ∅ [py "e4"]).1 = EndOfInput) by (vm_compute; reflexivity).
  split; [exact stub_push_atomic|]. split; [exact stub_moved_piece_present|].
  split; [exact H|].
  exact (main_prompt_state stub_push_atomic stub_moved_piece_present ∅
           [py "e4"] H).
Defined.


Lemma rejected_line_only_prints_witness :
  lower (py "e9") ≠ py "arbol"
  ∧ upper (py "e9") ≠ py "RESULTADO"
  ∧ (Blancas = Negras → truthy (py "e9") = true)
  ∧ (validate_move (py "e9") (__init__ ∅)).1 = Ret false
  ∧ ∃ msg,
      iteration Blancas 1 (py "e9") (__init__ ∅)
      = (Ret (Again Blancas 1),
         set_stdout (stdout (__init__ ∅) ++ [msg]) (__init__ ∅)).
Proof.
  assert (H1 : lower (py "e9") ≠ py "arbol") by (vm_compute; discriminate).
  assert (H2 : upper (py "e9") ≠ py "RESULTADO") by (vm_compute; discriminate).
  assert (H3 : Blancas = Negras → truthy (py "e9") = true) by discriminate.
  assert (H4 : (validate_move (py "e9") (__init__ ∅)).1 = Ret false)
    by (vm_compute; reflexivity).
  split; [exact H1|]. split; [exact H2|]. split; [exact H3|].
  split; [exact H4|].
  exact (rejected_line_only_prints Blancas 1 (__init__ ∅) (py "e9")
           H1 H2 H3 H4).
Defined.

(** Witness for [validate_move_deterministic]: a new parser, and the
    same parser after a turn was appended, a move played and the tree
    printed. *)
Lemma validate_move_deterministic_witness :
  let w1 := __init__ ∅ in
  let w2 := ((add_turn (py "e4") None;; play_move (py "e4");; generate_tree)
               (__init__ ∅)).2 in
  move_pattern w1 = move_pattern w2
  ∧ ∃ b : bool,
      validate_move (py "Nf3") w1 = (Ret b, w1)
      ∧ validate_move (py "Nf3") w2 = (Ret b, w2).
Proof.
  cbv zeta.
  assert (H : move_pattern (__init__ ∅)
              = move_pattern
                  ((add_turn (py "e4") None;; play_move (py "e4");;
                    generate_tree) (__init__ ∅)).2)
    by (vm_compute; reflexivity).
  split; [exact H|]. exact (validate_move_deterministic _ _ (py "Nf3") H).
Defined.


End MoreRuns.
